(** * Knowledge Nexus: graph consistency and unification engine

    A shallow embedding of the graph helpers ([utils/graph.ts]), of the
    structural validator, the union-find connectivity analyzer and the
    unification orchestrator ([services/graphOptimizerService.ts], in
    its two revisions), of the bridging call's error handling
    ([services/geminiService.ts]) and of the refinement handler of the
    application shell ([App.tsx]). *)

From Stdlib Require Import PrimFloat.
From Stdlib Require Import DecimalString.
From stdpp Require Import gmap strings list.

#[local] Set Warnings "-clear-no-such-hyp".

(** ** Data model ([types.ts]) *)

(** A JavaScript [number] is an IEEE-754 double. *)
Abbreviation number := PrimFloat.float (only parsing).

(** [interface GraphNode]: [val] and [color] are optional members;
    [None] stands for an absent ([undefined]) member. *)
Record GraphNode := mkNode {
  id : string;
  name : string;
  type : string;
  description : string;
  val : option number;
  color : option string
}.

(** [string | GraphNode]: a link endpoint is a bare identifier until the
    rendering layer replaces it by the node object. *)
Inductive NodeRef :=
| RefId (s : string)
| RefNode (n : GraphNode).

(** [interface GraphLink].  The member [relationship] is declared
    [string]; links that come out of [JSON.parse] are not checked
    against the declaration and the code guards its uses
    ([link.relationship || ''], [link.relationship?.toLowerCase()]), so
    an absent label is representable: [None] is [undefined]. *)
Record GraphLink := mkLink {
  source : NodeRef;
  target : NodeRef;
  relationship : option string
}.

(** [interface GraphData]. *)
Record GraphData := mkGraph {
  nodes : list GraphNode;
  links : list GraphLink
}.

(** ** Identity resolver and link key builder ([utils/graph.ts]) *)

Definition getNodeId (node : NodeRef) : string :=
  match node with
  | RefId s => s
  | RefNode n => id n
  end.

(** [x || ''] on an optional string: [undefined] and the empty string
    are falsy. *)
Definition or_empty (o : option string) : string :=
  match o with
  | Some s => s
  | None => ""
  end.

Definition buildLinkKey (link : GraphLink) : string :=
  let sourceId := getNodeId (source link) in
  let targetId := getNodeId (target link) in
  sourceId +:+ "__" +:+ or_empty (relationship link) +:+ "__" +:+ targetId.

(** ** Graph normalizer ([utils/graph.ts]) *)

(** [x ?? 1]: only an absent operand is replaced. *)
Definition nullish_or_one (o : option number) : number :=
  match o with
  | Some v => v
  | None => 1%float
  end.

Definition normalizeNode (node : GraphNode) : GraphNode :=
  {| id := id node;
     name := name node;
     type := type node;
     description := description node;
     val := Some (nullish_or_one (val node));
     color := color node |}.

(** [new Set(nodes.map(node => node.id))]. *)
Definition nodeIdSet (ns : list GraphNode) : gset string :=
  list_to_set (map id ns).

(** The record pushed both on [acc] and on [invalidLinks]. *)
Definition resolvedLink (link : GraphLink) : GraphLink :=
  {| source := RefId (getNodeId (source link));
     target := RefId (getNodeId (target link));
     relationship := relationship link |}.

(** One step of the [reduce] callback.  The accumulator is the array
    [acc] together with the captured array [invalidLinks]. *)
Definition normalizeStep (nodeIds : gset string)
    (st : list GraphLink * list GraphLink) (link : GraphLink)
    : list GraphLink * list GraphLink :=
  let '(acc, invalidLinks) := st in
  let source := getNodeId (source link) in
  let target := getNodeId (target link) in
  if negb (bool_decide (source ∈ nodeIds)) || negb (bool_decide (target ∈ nodeIds))
  then (acc, invalidLinks ++ [resolvedLink link])
  else (acc ++ [resolvedLink link], invalidLinks).

(** Decimal rendering of an array length or index in a template
    literal. *)
Definition showNat (n : nat) : string :=
  NilEmpty.string_of_uint (Nat.to_uint n).

(** The result of a normalization: the returned graph, the dropped
    links collected in [invalidLinks], and the text of the
    [console.warn] call when there is one. *)
Record Normalized := mkNormalized {
  payload : GraphData;
  invalidLinks : list GraphLink;
  warning : option string
}.

Definition normalizeGraphPayload_full (data : GraphData) : Normalized :=
  let nodes' := map normalizeNode (nodes data) in
  let nodeIds := nodeIdSet nodes' in
  let '(links', invalid) := fold_left (normalizeStep nodeIds) (links data) ([], []) in
  {| payload := {| nodes := nodes'; links := links' |};
     invalidLinks := invalid;
     warning :=
       if Nat.eqb (length invalid) 0 then None
       else Some ("[graph] Dropped " +:+ showNat (length invalid) +:+ " link"
                  +:+ (if Nat.eqb (length invalid) 1 then "" else "s")
                  +:+ " referencing missing nodes.") |}.

Definition normalizeGraphPayload (data : GraphData) : GraphData :=
  payload (normalizeGraphPayload_full data).

(** ** Structural validator ([GraphExpertSystem.validateGraph]) *)

Record ValidationReport := mkReport {
  isValid : bool;
  issues : list string
}.

(** The issues pushed by the [forEach] callback for the link at
    position [index]. *)
Definition validateLink (nodeIds : gset string) (index : nat) (link : GraphLink)
    : list string :=
  let sourceId := getNodeId (source link) in
  let targetId := getNodeId (target link) in
  (if bool_decide (sourceId ∈ nodeIds) then []
   else ["Link " +:+ showNat index +:+ " references non-existent source: " +:+ sourceId])
  ++
  (if bool_decide (targetId ∈ nodeIds) then []
   else ["Link " +:+ showNat index +:+ " references non-existent target: " +:+ targetId]).

Definition validateGraph (data : GraphData) : ValidationReport :=
  let nodeIds := nodeIdSet (nodes data) in
  let issues := concat (imap (validateLink nodeIds) (links data)) in
  {| isValid := Nat.eqb (length issues) 0; issues := issues |}.

(** ** Connectivity analyzer ([GraphExpertSystem.findDisconnectedComponents]) *)

(** The closure [find] reads and writes the captured [parent] map, so
    the map is passed in and returned.  The recursion follows parent
    pointers and is not structural: [fuel] bounds its depth and [None]
    means that the bound was reached. *)
Fixpoint find (fuel : nat) (parent : gmap string string) (id : string)
    : option (string * gmap string string) :=
  match fuel with
  | O => None
  | S fuel' =>
      match parent !! id with
      | None => Some (id, <[id := id]> parent)
      | Some p =>
          if decide (p = id) then Some (id, parent)
          else
            '(root, parent') ← find fuel' parent p;
            Some (root, <[id := root]> parent')
      end
  end.

Definition union (fuel : nat) (parent : gmap string string) (id1 id2 : string)
    : option (gmap string string) :=
  '(root1, parent1) ← find fuel parent id1;
  '(root2, parent2) ← find fuel parent1 id2;
  Some (if decide (root1 = root2) then parent2 else <[root1 := root2]> parent2).

(** [data.nodes.forEach(n => find(n.id))]. *)
Fixpoint initNodes (fuel : nat) (parent : gmap string string) (ns : list GraphNode)
    : option (gmap string string) :=
  match ns with
  | [] => Some parent
  | n :: ns' =>
      '(_, parent') ← find fuel parent (id n);
      initNodes fuel parent' ns'
  end.

(** [data.links.forEach(link => union(...))]. *)
Fixpoint unionLinks (fuel : nat) (parent : gmap string string) (ls : list GraphLink)
    : option (gmap string string) :=
  match ls with
  | [] => Some parent
  | link :: ls' =>
      parent' ← union fuel parent (getNodeId (source link)) (getNodeId (target link));
      unionLinks fuel parent' ls'
  end.

(** [clustersMap] is a [Map<string, string[]>]: its keys stay in
    insertion order, which is the order of [clustersMap.values()].
    [pushCluster root id] is the body
    [if (!has(root)) set(root, []); get(root).push(id)]. *)
Fixpoint pushCluster (root id : string) (clustersMap : list (string * list string))
    : list (string * list string) :=
  match clustersMap with
  | [] => [(root, [id])]
  | (k, ids) :: rest =>
      if decide (k = root) then (k, ids ++ [id]) :: rest
      else (k, ids) :: pushCluster root id rest
  end.

Fixpoint groupNodes (fuel : nat) (parent : gmap string string)
    (clustersMap : list (string * list string)) (ns : list GraphNode)
    : option (list (string * list string)) :=
  match ns with
  | [] => Some clustersMap
  | n :: ns' =>
      '(root, parent') ← find fuel parent (id n);
      groupNodes fuel parent' (pushCluster root (id n) clustersMap) ns'
  end.

Definition findDisconnectedComponents_fuel (fuel : nat) (data : GraphData)
    : option (list (list string)) :=
  parent0 ← initNodes fuel ∅ (nodes data);
  parent1 ← unionLinks fuel parent0 (links data);
  clustersMap ← groupNodes fuel parent1 [] (nodes data);
  Some (map snd clustersMap).

(** Every union lengthens the longest parent chain by at most one link,
    so one more than the number of links is enough fuel for every call
    of [find] ([findDisconnectedComponents_total] below). *)
Definition findDisconnectedComponents (data : GraphData) : option (list (list string)) :=
  findDisconnectedComponents_fuel (S (length (links data))) data.
Arguments findDisconnectedComponents : simpl never.

(** ** Bridging capability ([services/geminiService.ts]) *)

(** How an awaited call ends: with a value, or with a thrown error that
    the caller's [try]/[catch] sees. *)
Inductive Completion (A : Type) :=
| Returned (a : A)
| Threw.
Arguments Returned {A} a.
Arguments Threw {A}.

(** What [await ai.models.generateContent(...)] followed by
    [JSON.parse(response.text)] can do.  The parsed value is cast to
    [GraphLink[]] without a check; values of another shape are not
    modelled. *)
Inductive BridgeReply :=
| RequestFailed
| NoText
| Malformed
| Parsed (candidates : list GraphLink).

Definition newline : string := String (Ascii.ascii_of_nat 10) "".

(** [new Map(graphData.nodes.map(n => [n.id, n]))]: a later node with
    the same id replaces an earlier one. *)
Definition nodeMapOf (ns : list GraphNode) : gmap string GraphNode :=
  fold_left (fun m n => <[id n := n]> m) ns ∅.

Definition describeNode (nodeMap : gmap string GraphNode) (i : string) : string :=
  match nodeMap !! i with
  | Some n => id n +:+ " (" +:+ name n +:+ ": " +:+ type n +:+ ")"
  | None => i
  end.

Definition clusterDescriptions (data : GraphData) (clusters : list (list string)) : string :=
  let nodeMap := nodeMapOf (nodes data) in
  String.concat (newline +:+ newline)
    (imap (fun index ids =>
             "Cluster " +:+ showNat (index + 1) +:+ ": ["
               +:+ String.concat ", " (map (describeNode nodeMap) ids) +:+ "]")
          clusters).

Definition bridgePrompt (data : GraphData) (clusters : list (list string)) : string :=
  newline +:+ "    Here are the clusters of nodes that are currently disconnected in my graph:"
  +:+ newline +:+ "    " +:+ newline +:+ "    " +:+ clusterDescriptions data clusters
  +:+ newline +:+ "    " +:+ newline +:+ "    Please provide the bridging links as a JSON array."
  +:+ newline +:+ "  ".

Section Orchestration.

(** The model service, seen through the prompt it is given. *)
Variable gemini : string -> BridgeReply.

(** The body of the [try] returns the parsed candidates; the [catch]
    block logs the error and returns the empty array. *)
Definition findBridgesBetweenClusters (graphData : GraphData) (clusters : list (list string))
    : Completion (list GraphLink) :=
  match gemini (bridgePrompt graphData clusters) with
  | Parsed candidates => Returned candidates
  | NoText => Returned []
  | RequestFailed => Returned []
  | Malformed => Returned []
  end.

End Orchestration.

(** ** Unification orchestrator ([GraphExpertSystem.unifyGraph])

    The result is wrapped twice: [Completion] tells whether the awaited
    promise resolves or rejects, and the outer [option] is [None] only
    when the connectivity analyzer runs out of fuel, which does not
    happen ([stale_unifyGraph_shape], [revised_unifyGraph_shape]). *)

Record UnifyResult := mkUnify {
  unifiedData : GraphData;
  addedLinksCount : nat;
  clustersCount : nat;
  validation : ValidationReport
}.

(** An optional string inside a template literal. *)
Definition templateString (o : option string) : string :=
  match o with
  | Some s => s
  | None => "undefined"
  end.

(** A link endpoint inside a template literal: an object is rendered by
    [Object.prototype.toString]. *)
Definition templateRef (r : NodeRef) : string :=
  match r with
  | RefId s => s
  | RefNode _ => "[object Object]"
  end.

(** The key of an existing link,
    [`${getNodeId(l.source)}|${getNodeId(l.target)}|${l.relationship}`]. *)
Definition existingKey (l : GraphLink) : string :=
  getNodeId (source l) +:+ "|" +:+ getNodeId (target l) +:+ "|" +:+ templateString (relationship l).

Definition existingLinkKeysOf (ls : list GraphLink) : gset string :=
  list_to_set (map existingKey ls).

(** The file [services/graphOptimizerService.ts] is present in two
    revisions that differ in [unifyGraph] only.  [Stale] is the earlier
    one (source tree: [src/services/graphOptimizerService.ts]). *)
Module Stale.

(** [`${link.source}|${link.target}|${link.relationship}`]. *)
Definition candidateKey (link : GraphLink) : string :=
  templateRef (source link) +:+ "|" +:+ templateRef (target link) +:+ "|"
    +:+ templateString (relationship link).

(** The [newLinks.forEach] callback on [(finalLinks, addedCount)]. *)
Definition mergeStep (existingLinkKeys : gset string)
    (st : list GraphLink * nat) (link : GraphLink) : list GraphLink * nat :=
  let '(finalLinks, addedCount) := st in
  let key := candidateKey link in
  if negb (bool_decide (key ∈ existingLinkKeys))
  then (finalLinks ++ [link], S addedCount)
  else (finalLinks, addedCount).

Definition unifyGraph (gemini : string -> BridgeReply) (data : GraphData)
    : option (Completion UnifyResult) :=
  let validation := validateGraph data in
  clusters ← findDisconnectedComponents data;
  if length clusters <=? 1 then
    Some (Returned {| unifiedData := data;
                      addedLinksCount := 0;
                      clustersCount := length clusters;
                      validation := validation |})
  else
    match findBridgesBetweenClusters gemini data clusters with
    | Threw => Some Threw
    | Returned newLinks =>
        let existingLinkKeys := existingLinkKeysOf (links data) in
        let '(finalLinks, addedCount) :=
          fold_left (mergeStep existingLinkKeys) newLinks (links data, 0) in
        Some (Returned {| unifiedData := {| nodes := nodes data; links := finalLinks |};
                          addedLinksCount := addedCount;
                          clustersCount := length clusters;
                          validation := validation |})
    end.

End Stale.

(** [Revised] is the later one (source tree: [src/unnamed/part_003]):
    it adds the endpoint guard, under the comment "Issue 6", and
    recomputes the clusters after the merge, under the comment
    "Issue 5". *)
Module Revised.

(** [`${sourceId}|${targetId}|${link.relationship}`]. *)
Definition candidateKey (link : GraphLink) : string :=
  let sourceId := getNodeId (source link) in
  let targetId := getNodeId (target link) in
  sourceId +:+ "|" +:+ targetId +:+ "|" +:+ templateString (relationship link).

(** The [newLinks.forEach] callback on [(finalLinks, addedCount)]. *)
Definition mergeStep (nodeIds existingLinkKeys : gset string)
    (st : list GraphLink * nat) (link : GraphLink) : list GraphLink * nat :=
  let '(finalLinks, addedCount) := st in
  let sourceId := getNodeId (source link) in
  let targetId := getNodeId (target link) in
  if negb (bool_decide (sourceId ∈ nodeIds)) || negb (bool_decide (targetId ∈ nodeIds))
  then (finalLinks, addedCount)
  else
    let key := candidateKey link in
    if negb (bool_decide (key ∈ existingLinkKeys))
    then (finalLinks ++ [link], S addedCount)
    else (finalLinks, addedCount).

Definition unifyGraph (gemini : string -> BridgeReply) (data : GraphData)
    : option (Completion UnifyResult) :=
  let validation := validateGraph data in
  clusters ← findDisconnectedComponents data;
  if length clusters <=? 1 then
    Some (Returned {| unifiedData := data;
                      addedLinksCount := 0;
                      clustersCount := length clusters;
                      validation := validation |})
  else
    match findBridgesBetweenClusters gemini data clusters with
    | Threw => Some Threw
    | Returned newLinks =>
        let existingLinkKeys := existingLinkKeysOf (links data) in
        let nodeIds := nodeIdSet (nodes data) in
        let '(finalLinks, addedCount) :=
          fold_left (mergeStep nodeIds existingLinkKeys) newLinks (links data, 0) in
        let unifiedData := {| nodes := nodes data; links := finalLinks |} in
        finalClusters ← findDisconnectedComponents unifiedData;
        Some (Returned {| unifiedData := unifiedData;
                          addedLinksCount := addedCount;
                          clustersCount := length finalClusters;
                          validation := validation |})
    end.

End Revised.

(** ** Refinement handler of the application shell ([handleRefineGraph])

    The handler belongs to the revision of [App.tsx] that has the
    "Refine Graph" action (source tree: [src/unnamed/part_004]); it
    goes with the later revision of [unifyGraph]. *)

Record ExtractionStats := mkStats {
  nodeCount : nat;
  linkCount : nat;
  processingTimeMs : nat
}.

Inductive ToastType := ToastSuccess | ToastError | ToastInfo.

Record ToastState := mkToast {
  toastType : ToastType;
  message : string
}.

Inductive RefinementState := PREPARING | REFINING | COMPLETED.

Record BeforeStats := mkBefore {
  beforeNodes : nat;
  beforeLinks : nat;
  beforeClusters : nat
}.

Record AfterStats := mkAfter {
  afterNodes : nat;
  afterLinks : nat;
  afterClusters : nat;
  addedLinks : nat
}.

Record RefinementModalState := mkModal {
  isOpen : bool;
  state : RefinementState;
  before : option BeforeStats;
  after : option AfterStats
}.

(** The React state slots that the handler reads or writes. *)
Record AppModel := mkApp {
  graphData : GraphData;
  stats : option ExtractionStats;
  toast : option ToastState;
  isRefining : bool;
  refinementModal : RefinementModalState
}.

Definition hasGraph (app : AppModel) : bool :=
  0 <? length (nodes (graphData app)).

(** [timerFired] tells whether the 800 ms timer that moves the modal
    from [PREPARING] to [REFINING] ran before [unifyGraph] settled. *)
Definition handleRefineGraph (gemini : string -> BridgeReply) (timerFired : bool)
    (app : AppModel) : option AppModel :=
  if negb (hasGraph app) || isRefining app then Some app
  else
    initialClusters ← findDisconnectedComponents (graphData app);
    let beforeStats :=
      {| beforeNodes := length (nodes (graphData app));
         beforeLinks := length (links (graphData app));
         beforeClusters := length initialClusters |} in
    let opened :=
      {| isOpen := true; state := PREPARING; before := Some beforeStats; after := None |} in
    let shown :=
      if timerFired then
        {| isOpen := isOpen opened; state := REFINING;
           before := before opened; after := after opened |}
      else opened in
    outcome ← Revised.unifyGraph gemini (graphData app);
    match outcome with
    | Returned result =>
        let afterStats :=
          {| afterNodes := length (nodes (unifiedData result));
             afterLinks := length (links (unifiedData result));
             afterClusters := clustersCount result;
             addedLinks := addedLinksCount result |} in
        let installed := 0 <? addedLinksCount result in
        Some {| graphData := if installed then unifiedData result else graphData app;
                stats :=
                  if installed then
                    match stats app with
                    | Some prev =>
                        Some {| nodeCount := length (nodes (unifiedData result));
                                linkCount := length (links (unifiedData result));
                                processingTimeMs := processingTimeMs prev |}
                    | None => None
                    end
                  else stats app;
                toast := toast app;
                isRefining := false;
                refinementModal :=
                  {| isOpen := isOpen shown; state := COMPLETED;
                     before := before shown; after := Some afterStats |} |}
    | Threw =>
        Some {| graphData := graphData app;
                stats := stats app;
                toast := Some {| toastType := ToastError;
                                 message := "Failed to refine the graph." |};
                isRefining := false;
                refinementModal :=
                  {| isOpen := false; state := state shown;
                     before := before shown; after := after shown |} |}
    end.

(** ** Export snapshot ([createGraphExportSnapshot], [utils/graph.ts]) *)

(** The node literal [{ id, name, type, description, val, color }]. *)
Definition snapshotNode (n : GraphNode) : GraphNode :=
  {| id := id n;
     name := name n;
     type := type n;
     description := description n;
     val := val n;
     color := color n |}.

(** The link literal of the snapshot. *)
Definition snapshotLink (link : GraphLink) : GraphLink :=
  {| relationship := relationship link;
     source := RefId (getNodeId (source link));
     target := RefId (getNodeId (target link)) |}.

Definition createGraphExportSnapshot (data : GraphData) : GraphData :=
  {| nodes := map snapshotNode (nodes data);
     links := map snapshotLink (links data) |}.

(** ** Statistics cards of the refinement modal ([RefinementModal], [StatCard]) *)

Inductive Arrow := ArrowUp | ArrowDown.

(** What a card shows: its label, the value after the refinement and,
    unless the value is stable, an arrow with the size of the change. *)
Record StatCardView := mkCard {
  cardLabel : string;
  cardValue : nat;
  cardBadge : option (Arrow * nat)
}.

(** [inverse] is an optional property; an absent one is falsy. *)
Definition StatCard (label : string) (before after : nat) (inverse : bool) : StatCardView :=
  let isImproved := if inverse then after <? before else before <? after in
  let isStable := after =? before in
  {| cardLabel := label;
     cardValue := after;
     cardBadge :=
       if negb isStable
       then Some (if isImproved then ArrowUp else ArrowDown,
                  (after - before) + (before - after))
       else None |}.

(** The three cards of the completed modal; [None] when the modal is
    closed or still shows the progress text. *)
Definition refinementStatCards (m : RefinementModalState) : option (list StatCardView) :=
  if negb (isOpen m) then None
  else
    match state m with
    | COMPLETED =>
        Some [ StatCard "Nodes"
                 (match before m with Some b => beforeNodes b | None => 0 end)
                 (match after m with Some a => afterNodes a | None => 0 end) false;
               StatCard "Links"
                 (match before m with Some b => beforeLinks b | None => 0 end)
                 (match after m with Some a => afterLinks a | None => 0 end) false;
               StatCard "Clusters"
                 (match before m with Some b => beforeClusters b | None => 0 end)
                 (match after m with Some a => afterClusters a | None => 0 end) true ]
    | _ => None
    end.

(** ** Extraction ([extractGraphFromMarkdown], [services/geminiService.ts]) *)

(** A node as the model service sends it: whatever members it has
    (kept by the spread [...n]) and the [importance] that sizes it. *)
Record RawNode := mkRawNode {
  rawMembers : GraphNode;
  importance : option number
}.

Record RawGraph := mkRawGraph {
  rawNodes : list RawNode;
  rawLinks : list GraphLink
}.

(** What the extraction request and [JSON.parse(response.text)] can
    do; [ExtractMalformed] stands for every answer on which parsing or
    [rawData.nodes.map] throws. *)
Inductive ExtractReply :=
| ExtractFailed
| ExtractNoText
| ExtractMalformed
| Extracted (rawData : RawGraph).

(** Truthiness of a number: zero (of either sign) and NaN are falsy. *)
Definition jsTruthy (x : number) : bool :=
  negb (PrimFloat.is_zero x || PrimFloat.is_nan x).

(** [n.importance || 1]. *)
Definition importanceOrOne (o : option number) : number :=
  match o with
  | Some v => if jsTruthy v then v else 1%float
  | None => 1%float
  end.

(** [{ ...n, val: n.importance || 1 }]. *)
Definition sizedNode (n : RawNode) : GraphNode :=
  {| id := id (rawMembers n);
     name := name (rawMembers n);
     type := type (rawMembers n);
     description := description (rawMembers n);
     val := Some (importanceOrOne (importance n));
     color := color (rawMembers n) |}.

Definition extractionPrompt (markdownText : string) : string :=
  "Here is the markdown content to analyze:" +:+ newline +:+ newline +:+ markdownText.

(** Every error inside the [try] is caught and replaced by the error
    "Failed to extract graph data from the provided text.". *)
Definition extractGraphFromMarkdown (gemini : string -> ExtractReply) (markdownText : string)
    : Completion GraphData :=
  match gemini (extractionPrompt markdownText) with
  | Extracted rawData =>
      Returned {| nodes := map sizedNode (rawNodes rawData); links := rawLinks rawData |}
  | ExtractNoText => Threw
  | ExtractFailed => Threw
  | ExtractMalformed => Threw
  end.

(** ** Application shell: loading and searching ([App.tsx]) *)

Inductive AppState := IDLE | PARSING | VISUALIZING | ERROR.

(** [type QueryResult]. *)
Inductive QueryResult :=
| NodeResult (node : GraphNode)
| RelationshipResult (link : GraphLink) (sourceNode targetNode : GraphNode).

(** The state slots of the shell that loading, searching and selecting
    touch, around the slots of [AppModel]. *)
Record ShellModel := mkShell {
  core : AppModel;
  appState : AppState;
  currentFileName : string;
  selectedNode : option GraphNode;
  query : string;
  queryResults : list QueryResult;
  highlightedNodeIds : gset string;
  highlightedLinkKeys : gset string
}.

(** [triggerToast]; the timer that clears the toast after four seconds
    is not part of the state. *)
Definition triggerToast (kind : ToastType) (text : string) (s : ShellModel) : ShellModel :=
  {| core := {| graphData := graphData (core s);
               stats := stats (core s);
               toast := Some {| toastType := kind; message := text |};
               isRefining := isRefining (core s);
               refinementModal := refinementModal (core s) |};
     appState := appState s;
     currentFileName := currentFileName s;
     selectedNode := selectedNode s;
     query := query s;
     queryResults := queryResults s;
     highlightedNodeIds := highlightedNodeIds s;
     highlightedLinkKeys := highlightedLinkKeys s |}.

(** [applyGraphData], with [resetQueryState] inlined. *)
Definition applyGraphData (rawData : GraphData) (sourceLabel : string) (elapsedMs : nat)
    (s : ShellModel) : ShellModel :=
  let normalized := normalizeGraphPayload rawData in
  {| core := {| graphData := normalized;
               stats := Some {| nodeCount := length (nodes normalized);
                                linkCount := length (links normalized);
                                processingTimeMs := elapsedMs |};
               toast := toast (core s);
               isRefining := isRefining (core s);
               refinementModal := refinementModal (core s) |};
     appState := VISUALIZING;
     currentFileName := sourceLabel;
     selectedNode := None;
     query := "";
     queryResults := [];
     highlightedNodeIds := ∅;
     highlightedLinkKeys := ∅ |}.

Definition setAppState (a : AppState) (s : ShellModel) : ShellModel :=
  {| core := core s;
     appState := a;
     currentFileName := currentFileName s;
     selectedNode := selectedNode s;
     query := query s;
     queryResults := queryResults s;
     highlightedNodeIds := highlightedNodeIds s;
     highlightedLinkKeys := highlightedLinkKeys s |}.

(** [handleFileLoad]; [elapsedMs] is the rounded duration of the
    extraction call. *)
Definition handleFileLoad (gemini : string -> ExtractReply) (elapsedMs : nat)
    (content fileName : string) (s : ShellModel) : ShellModel :=
  let s1 := setAppState PARSING s in
  match extractGraphFromMarkdown gemini content with
  | Returned data =>
      triggerToast ToastSuccess ("Graph extracted from " +:+ fileName)
        (applyGraphData data fileName elapsedMs s1)
  | Threw =>
      setAppState ERROR
        (triggerToast ToastError "Unable to extract graph from the provided file." s1)
  end.

(** The string operations of the host that the search uses:
    [String.prototype.toLowerCase], [trim], [length] and [includes]
    (haystack first). *)
Record StringOps := mkStringOps {
  toLowerCase : string -> string;
  trim : string -> string;
  jsLength : string -> nat;
  includes : string -> string -> bool
}.

Definition MIN_QUERY_LENGTH : nat := 2.

(** The value pushed on [relationshipMatches] for one link, if any. *)
Definition relationshipMatch (js : StringOps) (nodeMap : gmap string GraphNode)
    (term : string) (link : GraphLink) : list (GraphLink * GraphNode * GraphNode) :=
  let sourceId := getNodeId (source link) in
  let targetId := getNodeId (target link) in
  match nodeMap !! sourceId, nodeMap !! targetId with
  | Some sourceNode, Some targetNode =>
      let relationshipText := or_empty (toLowerCase js <$> relationship link) in
      let sourceText :=
        toLowerCase js (name sourceNode +:+ " " +:+ description sourceNode) in
      let targetText :=
        toLowerCase js (name targetNode +:+ " " +:+ description targetNode) in
      if includes js relationshipText term || includes js sourceText term
         || includes js targetText term
      then [({| relationship := relationship link;
                source := RefId sourceId;
                target := RefId targetId |}, sourceNode, targetNode)]
      else []
  | _, _ => []
  end.

(** The effect that recomputes [queryResults] from [query] and
    [graphData]. *)
Definition searchResults (js : StringOps) (query : string) (graphData : GraphData)
    : list QueryResult :=
  let term := toLowerCase js (trim js query) in
  if String.eqb term "" || (jsLength js term <? MIN_QUERY_LENGTH)
     || (length (nodes graphData) =? 0)
  then []
  else
    let nodeMatches :=
      List.filter
        (fun node => existsb (fun value => includes js (toLowerCase js value) term)
                             [name node; description node; type node; id node])
        (nodes graphData) in
    let nodeMap := nodeMapOf (nodes graphData) in
    let relationshipMatches :=
      flat_map (relationshipMatch js nodeMap term) (links graphData) in
    map NodeResult (take 6 nodeMatches)
    ++ map (fun m => RelationshipResult (fst (fst m)) (snd (fst m)) (snd m))
           (take 6 relationshipMatches).

(** [handleResultSelect]. *)
Definition handleResultSelect (result : QueryResult) (s : ShellModel) : ShellModel :=
  match result with
  | NodeResult node =>
      {| core := core s; appState := appState s; currentFileName := currentFileName s;
         selectedNode := Some node;
         query := query s; queryResults := queryResults s;
         highlightedNodeIds := {[ id node ]};
         highlightedLinkKeys := ∅ |}
  | RelationshipResult link sourceNode targetNode =>
      {| core := core s; appState := appState s; currentFileName := currentFileName s;
         selectedNode := Some sourceNode;
         query := query s; queryResults := queryResults s;
         highlightedNodeIds := {[ id sourceNode ]} ∪ {[ id targetNode ]};
         highlightedLinkKeys := {[ buildLinkKey link ]} |}
  end.

(** ** Rendering rules ([components/Graph3D.tsx]) *)

(** [linkColor]. *)
Definition linkColor (highlightedLinkKeys : gset string) (link : GraphLink) : string :=
  let key := buildLinkKey link in
  let hasLinkHighlight := 0 <? size highlightedLinkKeys in
  if hasLinkHighlight then
    if bool_decide (key ∈ highlightedLinkKeys) then "#fbbf24" else "#1f2937"
  else "#475569".

(** [linkWidth]. *)
Definition linkWidth (highlightedLinkKeys : gset string) (link : GraphLink) : number :=
  let hasLinkHighlight := 0 <? size highlightedLinkKeys in
  if hasLinkHighlight && bool_decide (buildLinkKey link ∈ highlightedLinkKeys)
  then 2%float else 0.5%float.

Definition colors : list string :=
  ["#22d3ee"; "#a855f7"; "#f472b6"; "#34d399"; "#fbbf24"; "#f87171"; "#60a5fa"].

(** The elements of [new Set(values)], in insertion order. *)
Definition setOf (values : list string) : list string :=
  fold_left (fun acc x => if decide (x ∈ acc) then acc else acc ++ [x]) values [].

(** [typeColorMap], as the list of its entries in insertion order:
    the keys are distinct, so every [map.set] adds an entry. *)
Definition typeColorMap (data : GraphData) : list (string * string) :=
  imap (fun i t => (t, nth (i mod length colors) colors "")) (setOf (map type (nodes data))).

(** [map.get(key)]. *)
Fixpoint mapGet (key : string) (entries : list (string * string)) : option string :=
  match entries with
  | [] => None
  | (k, v) :: rest => if decide (k = key) then Some v else mapGet key rest
  end.

(** [nodeColor]; the empty string and a missing entry are falsy. *)
Definition nodeColor (highlightedNodeIds : gset string) (typeColors : list (string * string))
    (node : GraphNode) : string :=
  if bool_decide (id node ∈ highlightedNodeIds) then "#fbbf24"
  else
    match mapGet (type node) typeColors with
    | Some c => if String.eqb c "" then "#cbd5e1" else c
    | None => "#cbd5e1"
    end.

(** * Specification vocabulary *)

(** Sample data for the examples. *)
Definition sampleNode (i : string) : GraphNode :=
  {| id := i; name := i; type := "Concept"; description := ""; val := None; color := None |}.

Definition sampleLink (a b r : string) : GraphLink :=
  {| source := RefId a; target := RefId b; relationship := Some r |}.

(** A link both of whose resolved endpoints are in [nodeIds]. *)
Definition knownEndpoints (nodeIds : gset string) (l : GraphLink) : bool :=
  bool_decide (getNodeId (source l) ∈ nodeIds) && bool_decide (getNodeId (target l) ∈ nodeIds).

(** [reach p x r]: following parent pointers from [x] in [p] ends at
    the root [r]. *)
Inductive reach (p : gmap string string) : string -> string -> Prop :=
| reach_root r : p !! r = Some r -> reach p r r
| reach_step x y r : p !! x = Some y -> y <> x -> reach p y r -> reach p x r.

(** Two identifiers are in the same class of [p]. *)
Definition same (p : gmap string string) (x y : string) : Prop :=
  exists r, reach p x r /\ reach p y r.

(** Parent pointers go strictly up a rank. *)
Definition ranked (rank : string -> nat) (p : gmap string string) : Prop :=
  forall x y, p !! x = Some y -> y <> x -> rank x < rank y.

(** Every parent is registered itself. *)
Definition closed (p : gmap string string) : Prop :=
  forall x y, p !! x = Some y -> is_Some (p !! y).

(** The invariant of the [parent] map: no cycles other than the
    self-loops of roots, chains of length at most [B]. *)
Definition uf_inv (B : nat) (p : gmap string string) : Prop :=
  exists rank, ranked rank p /\ closed p /\ forall x, rank x <= B.

(** The two resolved endpoints of a link. *)
Definition endpoints (l : GraphLink) : string * string :=
  (getNodeId (source l), getNodeId (target l)).

(** Links connect in both directions. *)
Definition edge (E : list (string * string)) (x y : string) : Prop :=
  (x, y) ∈ E \/ (y, x) ∈ E.

(** [conn E x y]: [x] and [y] are joined by a chain of links of [E]. *)
Definition conn (E : list (string * string)) : relation string := rtc (edge E).

(** The classes of the parent map [p] are the connectivity classes of
    the links [E] on the registered identifiers [D]. *)
Definition classes_of (p : gmap string string) (D : gset string)
    (E : list (string * string)) : Prop :=
  (forall y, is_Some (p !! y) <-> y ∈ D) /\
  (forall a b, (a, b) ∈ E -> a ∈ D /\ b ∈ D) /\
  (forall y z, same p y z <-> y ∈ D /\ z ∈ D /\ conn E y z).

(** The grouping loop once the roots are known: [ps] lists the pairs
    (root, id) in the order of the nodes. *)
Definition groupPairs (ps : list (string * string))
    (clustersMap : list (string * list string)) : list (string * list string) :=
  fold_left (fun cm pr => pushCluster (fst pr) (snd pr) cm) ps clustersMap.

(** [clustersMap.get(k)], the empty array standing for a missing key. *)
Fixpoint members (k : string) (clustersMap : list (string * list string)) : list string :=
  match clustersMap with
  | [] => []
  | (k', ids) :: rest => if decide (k' = k) then ids else members k rest
  end.

(** The candidates that the merge loop of each revision appends. *)
Definition staleAccepted (existingLinkKeys : gset string) (link : GraphLink) : bool :=
  negb (bool_decide (Stale.candidateKey link ∈ existingLinkKeys)).

Definition revisedAccepted (nodeIds existingLinkKeys : gset string) (link : GraphLink) : bool :=
  knownEndpoints nodeIds link
  && negb (bool_decide (Revised.candidateKey link ∈ existingLinkKeys)).

(** The number of issues that one link contributes to a validation
    report. *)
Definition missingEndpoints (nodeIds : gset string) (l : GraphLink) : nat :=
  (if bool_decide (getNodeId (source l) ∈ nodeIds) then 0 else 1)
  + (if bool_decide (getNodeId (target l) ∈ nodeIds) then 0 else 1).

(** The link with source and target exchanged. *)
Definition reverseLink (l : GraphLink) : GraphLink :=
  {| source := target l; target := source l; relationship := relationship l |}.

(** The counters shown in the navigation bar agree with the graph. *)
Definition statsConsistent (app : AppModel) : Prop :=
  match stats app with
  | Some s => nodeCount s = length (nodes (graphData app)) /\
              linkCount s = length (links (graphData app))
  | None => True
  end.

(** The state after a refinement that went through the [try] block of
    [handleRefineGraph]. *)
Definition refinedApp (app : AppModel) (clusters : list (list string)) (r : UnifyResult)
    : AppModel :=
  let installed := 0 <? addedLinksCount r in
  {| graphData := if installed then unifiedData r else graphData app;
     stats :=
       if installed then
         match stats app with
         | Some prev =>
             Some {| nodeCount := length (nodes (unifiedData r));
                     linkCount := length (links (unifiedData r));
                     processingTimeMs := processingTimeMs prev |}
         | None => None
         end
       else stats app;
     toast := toast app;
     isRefining := false;
     refinementModal :=
       {| isOpen := true; state := COMPLETED;
          before := Some {| beforeNodes := length (nodes (graphData app));
                            beforeLinks := length (links (graphData app));
                            beforeClusters := length clusters |};
          after := Some {| afterNodes := length (nodes (unifiedData r));
                           afterLinks := length (links (unifiedData r));
                           afterClusters := clustersCount r;
                           addedLinks := addedLinksCount r |} |} |}.

(** Sample string operations for the examples: plain ASCII strings,
    compared as they are. *)
Fixpoint sampleIncludes (haystack needle : string) : bool :=
  String.prefix needle haystack
  || match haystack with
     | EmptyString => false
     | String _ rest => sampleIncludes rest needle
     end.

Definition sampleOps : StringOps :=
  {| toLowerCase := fun s => s;
     trim := fun s => s;
     jsLength := String.length;
     includes := sampleIncludes |}.

Definition sampleShell (g : GraphData) : ShellModel :=
  {| core := {| graphData := g; stats := None; toast := None; isRefining := false;
                refinementModal := {| isOpen := false; state := PREPARING;
                                      before := None; after := None |} |};
     appState := IDLE;
     currentFileName := "";
     selectedNode := None;
     query := "";
     queryResults := [];
     highlightedNodeIds := ∅;
     highlightedLinkKeys := ∅ |}.

(** * Properties *)

(** ** Link keys *)

Lemma getNodeId_resolvedLink_source l :
  getNodeId (source (resolvedLink l)) = getNodeId (source l).
Proof. reflexivity. Qed.

Lemma getNodeId_resolvedLink_target l :
  getNodeId (target (resolvedLink l)) = getNodeId (target l).
Proof. reflexivity. Qed.

Lemma resolvedLink_idemp l : resolvedLink (resolvedLink l) = resolvedLink l.
Proof. reflexivity. Qed.

(** The merge key and the highlight key disagree on a plain link. *)
Lemma merge_key_differs_from_buildLinkKey :
  let l := sampleLink "A" "B" "uses" in
  Revised.candidateKey l = "A|B|uses" /\
  existingKey l = "A|B|uses" /\
  Stale.candidateKey l = "A|B|uses" /\
  buildLinkKey l = "A__uses__B" /\
  Revised.candidateKey l <> buildLinkKey l.
Proof. repeat split; try reflexivity. discriminate. Qed.

(** C5 (as amended): the key that [unifyGraph] computes for
    deduplication is not [buildLinkKey].  It joins the resolved source,
    the resolved target and the relationship (rendered as the text
    "undefined" when absent) with a vertical bar, in that order, for
    existing links and for candidates alike (the earlier revision
    interpolates a candidate's endpoints as they are, which is the same
    for bare identifiers); [buildLinkKey] joins the resolved source,
    the relationship (empty when absent) and the resolved target with a
    double underscore.  Both keys are computed from the same three
    components, so links that agree on them get equal keys under
    either function. *)
Theorem merge_key_shape (l1 l2 : GraphLink) :
  (Revised.candidateKey l1 =
     getNodeId (source l1) +:+ "|" +:+ getNodeId (target l1) +:+ "|"
       +:+ templateString (relationship l1)) /\
  existingKey l1 = Revised.candidateKey l1 /\
  (forall a b r, Stale.candidateKey (mkLink (RefId a) (RefId b) r)
                 = Revised.candidateKey (mkLink (RefId a) (RefId b) r)) /\
  (buildLinkKey l1 =
     getNodeId (source l1) +:+ "__" +:+ or_empty (relationship l1) +:+ "__"
       +:+ getNodeId (target l1)) /\
  (getNodeId (source l1) = getNodeId (source l2) ->
   getNodeId (target l1) = getNodeId (target l2) ->
   relationship l1 = relationship l2 ->
   Revised.candidateKey l1 = Revised.candidateKey l2 /\ buildLinkKey l1 = buildLinkKey l2).
Proof.
  repeat split; try reflexivity.
  - unfold Revised.candidateKey. congruence.
  - unfold buildLinkKey. congruence.
Qed.

Lemma merge_key_shape_witness :
  Revised.candidateKey (sampleLink "A" "B" "uses")
    = Revised.candidateKey (mkLink (RefNode (sampleNode "A")) (RefId "B") (Some "uses")) /\
  buildLinkKey (sampleLink "A" "B" "uses")
    = buildLinkKey (mkLink (RefNode (sampleNode "A")) (RefId "B") (Some "uses")).
Proof.
  apply (merge_key_shape (sampleLink "A" "B" "uses")
           (mkLink (RefNode (sampleNode "A")) (RefId "B") (Some "uses")));
    reflexivity.
Defined.

(** ** Graph normalizer *)

Lemma normalizeStep_fold nodeIds ls acc inv :
  fold_left (normalizeStep nodeIds) ls (acc, inv) =
  (acc ++ map resolvedLink (List.filter (knownEndpoints nodeIds) ls),
   inv ++ map resolvedLink (List.filter (fun l => negb (knownEndpoints nodeIds l)) ls)).
Proof.
  revert acc inv. induction ls as [|l ls IH]; intros acc inv; cbn [fold_left List.filter].
  - simpl. by rewrite !app_nil_r.
  - assert (Hstep : normalizeStep nodeIds (acc, inv) l =
                    if knownEndpoints nodeIds l then (acc ++ [resolvedLink l], inv)
                    else (acc, inv ++ [resolvedLink l])).
    { unfold normalizeStep, knownEndpoints.
      by destruct (bool_decide (getNodeId (source l) ∈ nodeIds)),
                  (bool_decide (getNodeId (target l) ∈ nodeIds)). }
    rewrite Hstep.
    destruct (knownEndpoints nodeIds l); simpl; rewrite IH; by rewrite <- app_assoc.
Qed.

Lemma map_id_normalizeNode ns : map id (map normalizeNode ns) = map id ns.
Proof. induction ns as [|n ns IH]; simpl; [done | by rewrite IH]. Qed.

Lemma nodeIdSet_normalize ns : nodeIdSet (map normalizeNode ns) = nodeIdSet ns.
Proof. unfold nodeIdSet. by rewrite map_id_normalizeNode. Qed.

Lemma normalizeNode_idemp n : normalizeNode (normalizeNode n) = normalizeNode n.
Proof. reflexivity. Qed.

Lemma normalize_links_eq data :
  links (normalizeGraphPayload data) =
    map resolvedLink (List.filter (knownEndpoints (nodeIdSet (nodes data))) (links data)).
Proof.
  unfold normalizeGraphPayload, normalizeGraphPayload_full.
  rewrite normalizeStep_fold, nodeIdSet_normalize. reflexivity.
Qed.

Lemma normalize_invalid_eq data :
  invalidLinks (normalizeGraphPayload_full data) =
    map resolvedLink
      (List.filter (fun l => negb (knownEndpoints (nodeIdSet (nodes data)) l)) (links data)).
Proof.
  unfold normalizeGraphPayload_full.
  rewrite normalizeStep_fold, nodeIdSet_normalize. reflexivity.
Qed.

Lemma normalize_nodes_eq data :
  nodes (normalizeGraphPayload data) = map normalizeNode (nodes data).
Proof.
  unfold normalizeGraphPayload, normalizeGraphPayload_full.
  rewrite normalizeStep_fold. reflexivity.
Qed.

Lemma filter_partition_length {A} (f : A -> bool) (l : list A) :
  length (List.filter f l) + length (List.filter (fun x => negb (f x)) l) = length l.
Proof.
  induction l as [|x l IH]; simpl; [done|].
  destruct (f x); simpl; lia.
Qed.

Lemma filter_known_resolved nodeIds ls :
  List.filter (knownEndpoints nodeIds)
      (map resolvedLink (List.filter (knownEndpoints nodeIds) ls))
  = map resolvedLink (List.filter (knownEndpoints nodeIds) ls).
Proof.
  induction ls as [|l ls IH]; simpl; [done|].
  destruct (knownEndpoints nodeIds l) eqn:Hk; simpl; [|done].
  replace (knownEndpoints nodeIds (resolvedLink l)) with true by (by rewrite <- Hk).
  by rewrite IH.
Qed.

Lemma map_resolved_resolved ls :
  map resolvedLink (map resolvedLink ls) = map resolvedLink ls.
Proof. induction ls as [|l ls IH]; simpl; [done | by rewrite IH]. Qed.

Lemma map_normalize_normalize ns :
  map normalizeNode (map normalizeNode ns) = map normalizeNode ns.
Proof. induction ns as [|n ns IH]; simpl; [done | by rewrite IH]. Qed.

Lemma graph_eq g1 g2 : nodes g1 = nodes g2 -> links g1 = links g2 -> g1 = g2.
Proof. destruct g1, g2; simpl; congruence. Qed.

(** A raw value of zero survives normalization. *)
Lemma normalize_keeps_zero_val :
  let g := {| nodes := [ {| id := "a"; name := "A"; type := "Concept";
                            description := "d"; val := Some 0%float; color := None |} ];
              links := [] |} in
  map val (nodes (normalizeGraphPayload g)) = [Some 0%float] /\
  map val (nodes (normalizeGraphPayload g)) <> [Some 1%float].
Proof.
  split; [reflexivity|].
  intros H.
  apply (f_equal (fun vs => match vs with
                            | [Some v] => PrimFloat.eqb v 0%float
                            | _ => false
                            end)) in H.
  vm_compute in H. discriminate H.
Qed.

(** C6 (as amended): every raw node is turned, position by position,
    into a clean node with the same id, name, type, description and
    color; its val is 1 when the raw val is absent, and the raw val
    itself whenever it is present, whatever its value. *)
Theorem normalize_node_fields (data : GraphData) :
  length (nodes (normalizeGraphPayload data)) = length (nodes data) /\
  Forall2 (fun raw clean =>
             id clean = id raw /\ name clean = name raw /\ type clean = type raw /\
             description clean = description raw /\ color clean = color raw /\
             val clean = Some (match val raw with Some v => v | None => 1%float end))
          (nodes data) (nodes (normalizeGraphPayload data)).
Proof.
  rewrite normalize_nodes_eq. split; [by rewrite length_map|].
  induction (nodes data) as [|n ns IH]; simpl; constructor; [|exact IH].
  repeat split; destruct (val n); reflexivity.
Qed.

(** C7: normalization is idempotent; a second pass returns the same
    graph, drops nothing and warns about nothing. *)
Theorem normalize_idempotent (g : GraphData) :
  normalizeGraphPayload (normalizeGraphPayload g) = normalizeGraphPayload g /\
  invalidLinks (normalizeGraphPayload_full (normalizeGraphPayload g)) = [] /\
  warning (normalizeGraphPayload_full (normalizeGraphPayload g)) = None.
Proof.
  assert (Hinv : invalidLinks (normalizeGraphPayload_full (normalizeGraphPayload g)) = []).
  { rewrite normalize_invalid_eq, normalize_nodes_eq, nodeIdSet_normalize, normalize_links_eq.
    induction (links g) as [|l ls IH]; simpl; [done|].
    destruct (knownEndpoints (nodeIdSet (nodes g)) l) eqn:Hk; simpl; [|exact IH].
    replace (knownEndpoints (nodeIdSet (nodes g)) (resolvedLink l)) with true
      by (by rewrite <- Hk).
    simpl. exact IH. }
  split; [|split; [exact Hinv|]].
  - apply graph_eq.
    + rewrite !normalize_nodes_eq. apply map_normalize_normalize.
    + rewrite normalize_links_eq, normalize_nodes_eq, nodeIdSet_normalize.
      rewrite normalize_links_eq, filter_known_resolved. apply map_resolved_resolved.
  - pose proof Hinv as H.
    unfold normalizeGraphPayload_full in *.
    destruct (fold_left _ _ _) as [ls inv]. simpl in *. by rewrite H.
Qed.

(** C8: every link of a normalized graph has both endpoints among the
    ids of the normalized nodes.  The kept links are exactly the raw
    links with known endpoints, in order and with resolved endpoints;
    the others are collected in [invalidLinks], so every raw link is
    either kept or counted, and all nodes are returned. *)
Theorem normalize_referential_integrity (g : GraphData) :
  let r := normalizeGraphPayload_full g in
  Forall (fun l => getNodeId (source l) ∈ map id (nodes (normalizeGraphPayload g)) /\
                   getNodeId (target l) ∈ map id (nodes (normalizeGraphPayload g)))
         (links (normalizeGraphPayload g)) /\
  links (normalizeGraphPayload g)
    = map resolvedLink (List.filter (knownEndpoints (nodeIdSet (nodes g))) (links g)) /\
  invalidLinks r
    = map resolvedLink
        (List.filter (fun l => negb (knownEndpoints (nodeIdSet (nodes g)) l)) (links g)) /\
  length (links (normalizeGraphPayload g)) + length (invalidLinks r) = length (links g) /\
  length (nodes (normalizeGraphPayload g)) = length (nodes g) /\
  (warning r = None <-> invalidLinks r = []).
Proof.
  simpl. repeat split.
  - rewrite normalize_links_eq, normalize_nodes_eq, map_id_normalizeNode.
    apply Forall_forall. intros l Hl.
    apply list_elem_of_In, in_map_iff in Hl as (l0 & <- & Hl0).
    apply filter_In in Hl0 as [_ Hk]. unfold knownEndpoints in Hk.
    apply andb_prop in Hk as [Hs Ht].
    apply bool_decide_eq_true in Hs, Ht. unfold nodeIdSet in Hs, Ht.
    rewrite elem_of_list_to_set in Hs, Ht. by split.
  - apply normalize_links_eq.
  - apply normalize_invalid_eq.
  - rewrite normalize_links_eq, normalize_invalid_eq, !length_map.
    apply filter_partition_length.
  - by rewrite normalize_nodes_eq, length_map.
  - unfold normalizeGraphPayload_full.
    destruct (fold_left _ _ _) as [ls inv]. simpl.
    destruct inv; simpl; [done | discriminate].
  - unfold normalizeGraphPayload_full.
    destruct (fold_left _ _ _) as [ls inv]. simpl.
    intros ->. reflexivity.
Qed.

(** ** Union-find: parent maps *)

Lemma reach_is_root p x r : reach p x r -> p !! r = Some r.
Proof. induction 1; auto. Qed.

Lemma reach_in_dom p x r : reach p x r -> is_Some (p !! x).
Proof. destruct 1; eauto. Qed.

Lemma reach_fun p x r1 r2 : reach p x r1 -> reach p x r2 -> r1 = r2.
Proof.
  intros H1. revert r2. induction H1 as [r Hr | x y r Hx Hne _ IH]; intros r2 H2.
  - inversion H2; subst; [done | congruence].
  - inversion H2; subst; [congruence|].
    apply IH. congruence.
Qed.

Lemma reach_rank rank p x r : ranked rank p -> reach p x r -> rank x <= rank r.
Proof.
  intros Hrk. induction 1 as [| x y r Hx Hne _ IH]; [lia|].
  specialize (Hrk x y Hx Hne). lia.
Qed.

Lemma reach_rank_ne rank p x y r :
  ranked rank p -> p !! x = Some y -> y <> x -> reach p y r -> x <> r.
Proof.
  intros Hrk Hx Hne Hy ->.
  pose proof (reach_rank _ _ _ _ Hrk Hy). specialize (Hrk _ _ Hx Hne). lia.
Qed.

Lemma reach_total B p x : uf_inv B p -> is_Some (p !! x) -> exists r, reach p x r.
Proof.
  intros (rank & Hrk & Hcl & Hb).
  remember (B - rank x) as d eqn:Hd. revert x Hd.
  induction d as [d IH] using lt_wf_ind. intros x Hd [y Hx].
  destruct (decide (y = x)) as [->|Hne].
  - exists x. by constructor.
  - pose proof (Hrk _ _ Hx Hne) as Hlt. pose proof (Hb y) as Hy.
    destruct (IH (B - rank y) ltac:(lia) y eq_refl (Hcl _ _ Hx)) as [r Hr].
    exists r. by econstructor.
Qed.

Lemma same_refl B p x : uf_inv B p -> is_Some (p !! x) -> same p x x.
Proof. intros Hinv Hx. destruct (reach_total _ _ _ Hinv Hx) as [r Hr]. by exists r. Qed.

Lemma same_sym p x y : same p x y -> same p y x.
Proof. intros (r & ? & ?). by exists r. Qed.

Lemma same_trans p x y z : same p x y -> same p y z -> same p x z.
Proof.
  intros (r & Hx & Hy) (r' & Hy' & Hz).
  rewrite <- (reach_fun _ _ _ _ Hy Hy') in Hz. by exists r.
Qed.

Lemma same_dom_l p x y : same p x y -> is_Some (p !! x).
Proof. intros (r & Hx & _). by eapply reach_in_dom. Qed.

Lemma same_dom_r p x y : same p x y -> is_Some (p !! y).
Proof. intros (r & _ & Hy). by eapply reach_in_dom. Qed.

(** Registering a fresh identifier as its own root. *)
Lemma reach_register p x y r :
  p !! x = None -> reach p y r -> reach (<[x := x]> p) y r.
Proof.
  intros Hx. induction 1 as [r Hr | y z r Hy Hne _ IH].
  - constructor. rewrite lookup_insert_ne; [done | congruence].
  - econstructor; [|done|done]. rewrite lookup_insert_ne; [done | congruence].
Qed.

(** Path compression: re-pointing [x] at its own root. *)
Lemma reach_compress p x r y s :
  reach p x r -> x <> r -> reach p y s -> reach (<[x := r]> p) y s.
Proof.
  intros Hx Hne. induction 1 as [s Hs | y z s Hy Hyz Hz IH].
  - constructor. rewrite lookup_insert_ne; [done|].
    intros ->. apply Hne. eapply reach_fun; [by constructor | exact Hx].
  - destruct (decide (y = x)) as [->|Hyx].
    + assert (s = r) as ->
        by (eapply reach_fun; [by econstructor; [exact Hy | exact Hyz | exact Hz] | exact Hx]).
      econstructor; [apply lookup_insert_eq | congruence |].
      constructor. rewrite lookup_insert_ne; [|done]. by eapply reach_is_root.
    + econstructor; [|exact Hyz | exact IH]. by rewrite lookup_insert_ne.
Qed.

(** Linking the root [r1] below the root [r2]. *)
Lemma reach_link p r1 r2 y s :
  p !! r1 = Some r1 -> p !! r2 = Some r2 -> r1 <> r2 ->
  reach p y s -> reach (<[r1 := r2]> p) y (if decide (s = r1) then r2 else s).
Proof.
  intros H1 H2 Hne. induction 1 as [s Hs | y z s Hy Hyz Hz IH].
  - destruct (decide (s = r1)) as [->|Hsr].
    + econstructor; [apply lookup_insert_eq | congruence |].
      constructor. by rewrite lookup_insert_ne.
    + constructor. by rewrite lookup_insert_ne.
  - econstructor; [|exact Hyz | exact IH].
    rewrite lookup_insert_ne; [done|]. intros ->. congruence.
Qed.

(** What one call of [find] does, given enough fuel for the chain above
    [x]. *)
Lemma find_spec rank B p :
  ranked rank p -> closed p -> (forall x, rank x <= B) ->
  forall fuel x, B < fuel + rank x ->
  exists r p',
    find fuel p x = Some (r, p') /\
    ranked rank p' /\ closed p' /\
    reach p' x r /\
    (p !! x = None -> r = x) /\
    (forall y s, reach p y s -> reach p' y s) /\
    (forall y, is_Some (p' !! y) <-> is_Some (p !! y) \/ y = x).
Proof.
  intros Hrk Hcl Hb fuel. induction fuel as [|fuel IH]; intros x Hfuel.
  - specialize (Hb x). lia.
  - cbn [find]. destruct (p !! x) as [y|] eqn:Hx.
    + destruct (decide (y = x)) as [->|Hne].
      * exists x, p. repeat split; auto; try done.
        -- by constructor.
        -- intros [?| ->]; eauto.
      * pose proof (Hrk _ _ Hx Hne) as Hlt.
        destruct (IH y ltac:(lia)) as (r & p1 & Hfind & Hrk1 & Hcl1 & Hy1 & _ & Hpres & Hdom).
        rewrite Hfind. cbn.
        assert (Hinv : uf_inv B p) by (by exists rank).
        destruct (reach_total _ _ y Hinv (Hcl _ _ Hx)) as [r0 Hy0].
        assert (r0 = r) as -> by (eapply reach_fun; [apply Hpres, Hy0 | exact Hy1]).
        assert (Hxr : reach p x r) by (by econstructor).
        assert (Hxne : x <> r) by exact (reach_rank_ne rank p x y r Hrk Hx Hne Hy0).
        pose proof (Hpres _ _ Hxr) as Hxr1.
        pose proof (reach_rank _ _ _ _ Hrk Hy0) as Hle.
        exists r, (<[x := r]> p1). repeat split.
        -- intros a b Hab Hba. destruct (decide (a = x)) as [->|Hax].
           ++ rewrite lookup_insert_eq in Hab. injection Hab as <-. lia.
           ++ rewrite lookup_insert_ne in Hab by done. by apply Hrk1.
        -- intros a b Hab. destruct (decide (a = x)) as [->|Hax].
           ++ rewrite lookup_insert_eq in Hab. injection Hab as <-.
              rewrite lookup_insert_ne by done. rewrite (reach_is_root _ _ _ Hy1). eauto.
           ++ rewrite lookup_insert_ne in Hab by done.
              destruct (decide (b = x)) as [->|Hbx].
              ** rewrite lookup_insert_eq. eauto.
              ** rewrite lookup_insert_ne by done. by eapply Hcl1.
        -- econstructor; [apply lookup_insert_eq | congruence |].
           constructor. rewrite lookup_insert_ne by done. by eapply reach_is_root.
        -- congruence.
        -- intros a s Ha. eapply reach_compress; eauto.
        -- intros Ha. destruct (decide (y0 = x)) as [->|Hy0x]; [by right|].
           rewrite lookup_insert_ne in Ha by done. apply Hdom in Ha as [Ha| ->]; [by left|].
           left. by eapply Hcl.
        -- intros [Ha| ->]; [|rewrite lookup_insert_eq; eauto].
           destruct (decide (y0 = x)) as [->|Hy0x]; [rewrite lookup_insert_eq; eauto|].
           rewrite lookup_insert_ne by done. apply Hdom. by left.
    + exists x, (<[x := x]> p). repeat split.
      * intros a b Hab Hba. destruct (decide (a = x)) as [->|Hax].
        -- rewrite lookup_insert_eq in Hab. congruence.
        -- rewrite lookup_insert_ne in Hab by done. by apply Hrk.
      * intros a b Hab. destruct (decide (a = x)) as [->|Hax].
        -- rewrite lookup_insert_eq in Hab. injection Hab as <-.
           rewrite lookup_insert_eq. eauto.
        -- rewrite lookup_insert_ne in Hab by done.
           destruct (decide (b = x)) as [->|Hbx].
           ++ rewrite lookup_insert_eq. eauto.
           ++ rewrite lookup_insert_ne by done. by eapply Hcl.
      * constructor. apply lookup_insert_eq.
      * intros a s Ha. by apply reach_register.
      * intros Ha. destruct (decide (y = x)) as [->|Hyx]; [by right|].
        rewrite lookup_insert_ne in Ha by done. by left.
      * intros [Ha| ->]; [|rewrite lookup_insert_eq; eauto].
        destruct (decide (y = x)) as [->|Hyx]; [rewrite lookup_insert_eq; eauto|].
        by rewrite lookup_insert_ne.
Qed.

(** More fuel never changes the answer of [find]. *)
Lemma find_fuel_mono fuel fuel' p x res :
  find fuel p x = Some res -> fuel <= fuel' -> find fuel' p x = Some res.
Proof.
  revert fuel' x res. induction fuel as [|fuel IH]; intros fuel' x res Hf Hle; [done|].
  destruct fuel' as [|fuel']; [lia|].
  cbn [find] in *. destruct (p !! x) as [y|]; [|done].
  destruct (decide (y = x)); [done|].
  destruct (find fuel p y) as [[r p1]|] eqn:Hy; [|done].
  rewrite (IH fuel' y (r, p1) Hy ltac:(lia)). exact Hf.
Qed.

Lemma find_inv B p fuel x :
  uf_inv B p -> B < fuel ->
  exists r p',
    find fuel p x = Some (r, p') /\
    uf_inv B p' /\
    reach p' x r /\
    (forall y, is_Some (p' !! y) <-> is_Some (p !! y) \/ y = x) /\
    (forall y s, reach p y s -> reach p' y s) /\
    (forall y s, reach p' y s -> reach p y s \/ (p !! x = None /\ y = x /\ s = x)).
Proof.
  intros Hinv Hfuel. pose proof Hinv as (rank & Hrk & Hcl & Hb).
  destruct (find_spec rank B p Hrk Hcl Hb fuel x ltac:(lia))
    as (r & p' & Hfind & Hrk' & Hcl' & Hx & Hnew & Hpres & Hdom).
  exists r, p'. split_and!; auto.
  - by exists rank.
  - intros y s Hy. pose proof (reach_in_dom _ _ _ Hy) as Hin.
    apply Hdom in Hin as [Hin| ->].
    + left. destruct (reach_total _ _ _ Hinv Hin) as [s0 Hs0].
      by rewrite (reach_fun _ _ _ _ Hy (Hpres _ _ Hs0)).
    + destruct (p !! x) as [w|] eqn:Hpx.
      * left. destruct (reach_total _ _ x Hinv ltac:(eauto)) as [s0 Hs0].
        by rewrite (reach_fun _ _ _ _ Hy (Hpres _ _ Hs0)).
      * right. split_and!; auto.
        rewrite <- (Hnew eq_refl). eapply reach_fun; eauto.
Qed.

Lemma find_same B p fuel x r p' :
  uf_inv B p -> B < fuel -> find fuel p x = Some (r, p') ->
  uf_inv B p' /\
  reach p' x r /\
  (forall y, is_Some (p' !! y) <-> is_Some (p !! y) \/ y = x) /\
  (forall y s, is_Some (p !! y) -> reach p' y s <-> reach p y s) /\
  (forall y z, same p' y z <-> same p y z \/ (y = x /\ z = x)).
Proof.
  intros Hinv Hfuel Hfind.
  destruct (find_inv B p fuel x Hinv Hfuel) as (r0 & p0 & Hf & Hinv' & Hx & Hdom & Hpres & Hback).
  rewrite Hfind in Hf. injection Hf as <- <-.
  split_and!; auto.
  - intros y s Hin. split; [|apply Hpres].
    intros Hy. destruct (Hback _ _ Hy) as [?|(Hnone & -> & _)]; [done|].
    rewrite Hnone in Hin. by destruct Hin.
  - intros y z. split.
    + intros (s & Hy & Hz).
      destruct (Hback _ _ Hy) as [Hy0|(Hn & -> & ->)], (Hback _ _ Hz) as [Hz0|(Hn' & -> & Hs)].
      * left. by exists s.
      * subst s. apply reach_is_root in Hy0. congruence.
      * apply reach_is_root in Hz0. congruence.
      * by right.
    + intros [(s & Hy & Hz)|[-> ->]].
      * exists s. split; by apply Hpres.
      * by exists r.
Qed.

(** The assignment [parent.set(root1, root2)] of [union]. *)
Lemma link_same B p a b r1 r2 :
  uf_inv B p -> reach p a r1 -> reach p b r2 ->
  let p' := if decide (r1 = r2) then p else <[r1 := r2]> p in
  uf_inv (S B) p' /\
  (forall y, is_Some (p' !! y) <-> is_Some (p !! y)) /\
  (forall y z, same p' y z <->
     same p y z \/ (same p y a /\ same p z b) \/ (same p y b /\ same p z a)).
Proof.
  intros Hinv Ha Hb. pose proof Hinv as (rank & Hrk & Hcl & Hbound).
  destruct (decide (r1 = r2)) as [->|Hne]; simpl.
  - split; [|split; [done|]].
    + exists rank. split_and!; auto.
    + intros y z. split; [by left|].
      intros [?|[[Hy Hz]|[Hy Hz]]]; [done| |].
      * eapply same_trans; [exact Hy|]. eapply same_trans; [|apply same_sym, Hz]. by exists r2.
      * eapply same_trans; [exact Hy|]. eapply same_trans; [|apply same_sym, Hz]. by exists r2.
  - pose proof (reach_is_root _ _ _ Ha) as H1. pose proof (reach_is_root _ _ _ Hb) as H2.
    assert (Hdom : forall y, is_Some (<[r1 := r2]> p !! y) <-> is_Some (p !! y)).
    { intros y. destruct (decide (y = r1)) as [->|Hy].
      - rewrite lookup_insert_eq, H1. split; eauto.
      - by rewrite lookup_insert_ne. }
    assert (Hinv' : uf_inv (S B) (<[r1 := r2]> p)).
    { exists (fun z => if decide (z = r2) then Nat.max (rank r2) (S (rank r1)) else rank z).
      split_and!.
      - intros x y Hxy Hyx. destruct (decide (x = r1)) as [->|Hx1].
        + rewrite lookup_insert_eq in Hxy. injection Hxy as <-.
          rewrite decide_False by done. rewrite decide_True by done. lia.
        + rewrite lookup_insert_ne in Hxy by done.
          assert (x <> r2) by (intros ->; congruence).
          rewrite (decide_False (P := x = r2)) by done.
          pose proof (Hrk _ _ Hxy Hyx). destruct (decide (y = r2)) as [->|?]; lia.
      - intros x y Hxy. apply Hdom. destruct (decide (x = r1)) as [->|Hx1].
        + rewrite lookup_insert_eq in Hxy. injection Hxy as <-. eauto.
        + rewrite lookup_insert_ne in Hxy by done. by eapply Hcl.
      - intros x. pose proof (Hbound x). pose proof (Hbound r1). pose proof (Hbound r2).
        destruct (decide (x = r2)) as [->|?]; lia. }
    split; [exact Hinv'|]. split; [exact Hdom|].
    set (f := fun s : string => if decide (s = r1) then r2 else s).
    assert (Hf : forall y s, reach p y s -> reach (<[r1 := r2]> p) y (f s))
      by (intros y s Hy; by apply reach_link).
    assert (Hroot : forall y s, reach (<[r1 := r2]> p) y s ->
                                exists s0, reach p y s0 /\ s = f s0).
    { intros y s Hy.
      destruct (reach_total _ _ y Hinv) as [s0 Hs0]; [by eapply Hdom, reach_in_dom|].
      exists s0. split; [done|]. eapply reach_fun; [exact Hy | by apply Hf]. }
    intros y z. split.
    + intros (s & Hy & Hz).
      destruct (Hroot _ _ Hy) as (sy & Hsy & Ey), (Hroot _ _ Hz) as (sz & Hsz & Ez).
      subst s. unfold f in Ez.
      destruct (decide (sy = r1)) as [->|Hy1], (decide (sz = r1)) as [->|Hz1].
      * left. by exists r1.
      * subst sz. right; left. split; [by exists r1 | by exists r2].
      * subst sy. right; right. split; [by exists r2 | by exists r1].
      * subst sz. left. by exists sy.
    + intros [(s & Hy & Hz)|[[(s & Hy & Ha') (s' & Hz & Hb')]|[(s & Hy & Hb') (s' & Hz & Ha')]]].
      * exists (f s). split; by apply Hf.
      * rewrite (reach_fun _ _ _ _ Ha' Ha) in Hy. rewrite (reach_fun _ _ _ _ Hb' Hb) in Hz.
        exists r2. split.
        -- replace r2 with (f r1) at 2 by (unfold f; by rewrite decide_True). by apply Hf.
        -- replace r2 with (f r2) at 2 by (unfold f; by rewrite decide_False). by apply Hf.
      * rewrite (reach_fun _ _ _ _ Hb' Hb) in Hy. rewrite (reach_fun _ _ _ _ Ha' Ha) in Hz.
        exists r2. split.
        -- replace r2 with (f r2) at 2 by (unfold f; by rewrite decide_False). by apply Hf.
        -- replace r2 with (f r1) at 2 by (unfold f; by rewrite decide_True). by apply Hf.
Qed.

(** ** Connectivity of a list of links *)

Lemma edge_sym E x y : edge E x y -> edge E y x.
Proof. unfold edge. tauto. Qed.

Lemma conn_sym E x y : conn E x y -> conn E y x.
Proof.
  induction 1 as [|x w y Hxw _ IH]; [apply rtc_refl|].
  eapply rtc_r; [exact IH | by apply edge_sym].
Qed.

Lemma conn_trans E x y z : conn E x y -> conn E y z -> conn E x z.
Proof. apply rtc_trans. Qed.

Lemma conn_app_l E E' x y : conn E x y -> conn (E ++ E') x y.
Proof.
  induction 1 as [|x w y Hxw _ IH]; [apply rtc_refl|].
  eapply rtc_l; [|exact IH]. unfold edge in *. rewrite !elem_of_app. tauto.
Qed.

(** Only an endpoint of some link is connected to anything else. *)
Lemma conn_endpoint E x y : conn E x y -> x <> y -> exists w, edge E x w.
Proof. destruct 1; [done | eauto]. Qed.

Lemma conn_snoc E a b y z :
  conn (E ++ [(a, b)]) y z <->
  conn E y z \/ (conn E y a /\ conn E b z) \/ (conn E y b /\ conn E a z).
Proof.
  split.
  - induction 1 as [|y w z Hyw _ IH]; [left; apply rtc_refl|].
    assert (Hcase : edge E y w \/ (y = a /\ w = b) \/ (y = b /\ w = a)).
    { destruct Hyw as [H|H]; apply elem_of_app in H as [H|H].
      - left. by left.
      - apply list_elem_of_singleton in H. injection H as -> ->. tauto.
      - left. by right.
      - apply list_elem_of_singleton in H. injection H as -> ->. tauto. }
    destruct Hcase as [He|[[-> ->]|[-> ->]]].
    + destruct IH as [H|[[H1 H2]|[H1 H2]]].
      * left. by eapply rtc_l.
      * right; left. split; [by eapply rtc_l | done].
      * right; right. split; [by eapply rtc_l | done].
    + destruct IH as [H|[[H1 H2]|[H1 H2]]].
      * right; left. split; [apply rtc_refl | done].
      * left. eapply conn_trans; [apply conn_sym, H1 | exact H2].
      * left. exact H2.
    + destruct IH as [H|[[H1 H2]|[H1 H2]]].
      * right; right. split; [apply rtc_refl | done].
      * left. exact H2.
      * left. eapply conn_trans; [apply conn_sym, H1 | exact H2].
  - assert (Hab : conn (E ++ [(a, b)]) a b).
    { apply rtc_once. left. apply elem_of_app. right. by apply list_elem_of_singleton. }
    intros [H|[[H1 H2]|[H1 H2]]].
    + by apply conn_app_l.
    + eapply conn_trans; [by apply conn_app_l|].
      eapply conn_trans; [exact Hab | by apply conn_app_l].
    + eapply conn_trans; [by apply conn_app_l|].
      eapply conn_trans; [apply conn_sym, Hab | by apply conn_app_l].
Qed.

Lemma classes_empty : classes_of ∅ ∅ [].
Proof.
  split_and!.
  - intros y. rewrite lookup_empty. split; [by intros [? ?] | set_solver].
  - intros a b H. by apply elem_of_nil in H.
  - intros y z. split.
    + intros H. apply same_dom_l in H. rewrite lookup_empty in H. by destruct H.
    + set_solver.
Qed.

Lemma uf_inv_empty : uf_inv 0 ∅.
Proof.
  exists (fun _ => 0). split_and!; [| |done]; intros x y H; by rewrite lookup_empty in H.
Qed.

Lemma uf_inv_mono B B' p : uf_inv B p -> B <= B' -> uf_inv B' p.
Proof.
  intros (rank & ? & ? & Hb) Hle. exists rank. split_and!; auto.
  intros x. specialize (Hb x). lia.
Qed.

Lemma classes_find B p D E fuel x r p' :
  uf_inv B p -> B < fuel -> classes_of p D E ->
  find fuel p x = Some (r, p') ->
  uf_inv B p' /\ classes_of p' (D ∪ {[x]}) E /\ reach p' x r.
Proof.
  intros Hinv Hfuel (HD & HE & HS) Hfind.
  destruct (find_same _ _ _ _ _ _ Hinv Hfuel Hfind) as (Hinv' & Hx & Hdom & _ & Hsame).
  split; [done|]. split; [|done]. split_and!.
  - intros y. rewrite Hdom, HD. set_solver.
  - intros a b Hab. apply HE in Hab. set_solver.
  - intros y z. rewrite Hsame, HS. split.
    + intros [(? & ? & ?)|[-> ->]]; [set_solver|].
      split_and!; [set_solver | set_solver | apply rtc_refl].
    + intros (Hy & Hz & Hc).
      destruct (decide (y = z)) as [->|Hne].
      * destruct (decide (z ∈ D)); [left | right; set_solver].
        split_and!; auto.
      * left.
        destruct (conn_endpoint _ _ _ Hc Hne) as [w [Hw|Hw]];
          destruct (conn_endpoint _ _ _ (conn_sym _ _ _ Hc) (not_eq_sym Hne)) as [w' [Hw'|Hw']];
          apply HE in Hw; apply HE in Hw'; tauto.
Qed.

Lemma classes_union B p D E fuel a b :
  uf_inv B p -> B < fuel -> classes_of p D E ->
  exists p',
    union fuel p a b = Some p' /\
    uf_inv (S B) p' /\
    classes_of p' (D ∪ {[a]} ∪ {[b]}) (E ++ [(a, b)]).
Proof.
  intros Hinv Hfuel Hcl. unfold union.
  destruct (find_inv B p fuel a Hinv Hfuel) as (r1 & p1 & Hf1 & _).
  destruct (classes_find _ _ _ _ _ _ _ _ Hinv Hfuel Hcl Hf1) as (Hinv1 & Hcl1 & Ha1).
  destruct (find_inv B p1 fuel b Hinv1 Hfuel) as (r2 & p2 & Hf2 & _ & _ & _ & Hpres & _).
  destruct (classes_find _ _ _ _ _ _ _ _ Hinv1 Hfuel Hcl1 Hf2) as (Hinv2 & Hcl2 & Hb2).
  rewrite Hf1. cbn. rewrite Hf2. cbn.
  eexists. split; [reflexivity|].
  pose proof (Hpres _ _ Ha1) as Ha2.
  destruct (link_same B p2 a b r1 r2 Hinv2 Ha2 Hb2) as (Hinv' & Hdom & Hsame).
  split; [exact Hinv'|].
  destruct Hcl2 as (HD & HE & HS).
  set (D2 := D ∪ {[a]} ∪ {[b]}) in *.
  assert (HaD : a ∈ D2) by set_solver.
  assert (HbD : b ∈ D2) by set_solver.
  split_and!.
  - intros y. by rewrite Hdom, HD.
  - intros u v Huv. apply elem_of_app in Huv as [Huv|Huv]; [by apply HE|].
    apply list_elem_of_singleton in Huv. injection Huv as -> ->. done.
  - intros y z. rewrite Hsame, !HS, conn_snoc. split.
    + intros [(? & ? & ?)|[[(? & ? & ?) (? & ? & ?)]|[(? & ? & ?) (? & ? & ?)]]].
      * tauto.
      * split_and!; auto. right; left. split; [done | by apply conn_sym].
      * split_and!; auto. right; right. split; [done | by apply conn_sym].
    + intros (Hy & Hz & [?|[[? ?]|[? ?]]]).
      * left. tauto.
      * right; left. split; split_and!; auto. by apply conn_sym.
      * right; right. split; split_and!; auto. by apply conn_sym.
Qed.

Lemma classes_of_dom_eq p D D' E : D = D' -> classes_of p D E -> classes_of p D' E.
Proof. by intros ->. Qed.

Lemma initNodes_spec B fuel ns : forall p D E,
  uf_inv B p -> B < fuel -> classes_of p D E ->
  exists p',
    initNodes fuel p ns = Some p' /\
    uf_inv B p' /\
    classes_of p' (D ∪ list_to_set (map id ns)) E.
Proof.
  induction ns as [|n ns IH]; intros p D E Hinv Hfuel Hcl; cbn [initNodes].
  - exists p. split_and!; auto.
    eapply classes_of_dom_eq; [|exact Hcl]. set_solver.
  - destruct (find_inv B p fuel (id n) Hinv Hfuel) as (r & p1 & Hf & _).
    destruct (classes_find _ _ _ _ _ _ _ _ Hinv Hfuel Hcl Hf) as (Hinv1 & Hcl1 & _).
    rewrite Hf. cbn.
    destruct (IH p1 _ E Hinv1 Hfuel Hcl1) as (p' & Hp' & Hinv' & Hcl').
    exists p'. split_and!; auto.
    eapply classes_of_dom_eq; [|exact Hcl']. set_solver.
Qed.

Lemma unionLinks_spec fuel ls : forall B p D E,
  uf_inv B p -> B + length ls < fuel -> classes_of p D E ->
  exists p' D',
    unionLinks fuel p ls = Some p' /\
    uf_inv (B + length ls) p' /\
    D ⊆ D' /\
    classes_of p' D' (E ++ map endpoints ls).
Proof.
  induction ls as [|l ls IH]; intros B p D E Hinv Hfuel Hcl; cbn [unionLinks length] in *.
  - exists p, D. rewrite app_nil_r. split_and!; auto.
    by replace (B + 0) with B by lia.
  - destruct (classes_union B p D E fuel (getNodeId (source l)) (getNodeId (target l))
                Hinv ltac:(lia) Hcl) as (p1 & Hu & Hinv1 & Hcl1).
    rewrite Hu. cbn.
    destruct (IH (S B) p1 _ _ Hinv1 ltac:(lia) Hcl1) as (p' & D' & Hp' & Hinv' & Hsub & Hcl').
    exists p', D'. split_and!; auto.
    + by replace (B + S (length ls)) with (S B + length ls) by lia.
    + set_solver.
    + cbn [map]. rewrite <- app_assoc in Hcl'. exact Hcl'.
Qed.

(** ** Grouping by root *)

Lemma members_push k r x cm :
  members k (pushCluster r x cm) =
    if decide (k = r) then members k cm ++ [x] else members k cm.
Proof.
  induction cm as [|[k' ids] rest IH]; cbn [pushCluster members].
  - destruct (decide (r = k)) as [->|?].
    + by rewrite decide_True.
    + by rewrite decide_False.
  - destruct (decide (k' = r)) as [->|Hk'r]; cbn [members].
    + destruct (decide (r = k)) as [->|?].
      * by rewrite decide_True.
      * by rewrite decide_False.
    + destruct (decide (k' = k)) as [->|?].
      * by rewrite decide_False.
      * exact IH.
Qed.

Lemma keys_push r x cm :
  map fst (pushCluster r x cm) =
    if decide (r ∈ map fst cm) then map fst cm else map fst cm ++ [r].
Proof.
  induction cm as [|[k' ids] rest IH]; cbn [pushCluster map fst].
  - rewrite decide_False; [done | apply not_elem_of_nil].
  - destruct (decide (k' = r)) as [->|Hne]; cbn [map fst].
    + rewrite decide_True; [done | apply list_elem_of_here].
    + rewrite IH. destruct (decide (r ∈ map fst rest)) as [Hin|Hnin].
      * rewrite decide_True; [done | by apply list_elem_of_further].
      * rewrite decide_False; [done|].
        intros Hin. apply elem_of_cons in Hin as [?|?]; [congruence | done].
Qed.

Lemma keys_push_NoDup r x cm : NoDup (map fst cm) -> NoDup (map fst (pushCluster r x cm)).
Proof.
  intros Hnd. rewrite keys_push. destruct (decide (r ∈ map fst cm)); [done|].
  apply NoDup_app. split_and!; [done | | apply NoDup_singleton].
  intros y Hy Hy'. apply list_elem_of_singleton in Hy'. by subst.
Qed.

Lemma groupPairs_members k ps : forall cm,
  members k (groupPairs ps cm) =
    members k cm ++ map snd (List.filter (fun pr => bool_decide (fst pr = k)) ps).
Proof.
  induction ps as [|[r x] ps IH]; intros cm; cbn [groupPairs fold_left List.filter].
  - by rewrite app_nil_r.
  - fold (groupPairs ps (pushCluster r x cm)). rewrite IH, members_push. cbn [fst snd].
    destruct (decide (k = r)) as [->|Hne].
    + rewrite bool_decide_eq_true_2 by done. cbn [map snd]. by rewrite <- app_assoc.
    + rewrite bool_decide_eq_false_2 by congruence. done.
Qed.

Lemma groupPairs_keys k ps : forall cm,
  k ∈ map fst (groupPairs ps cm) <-> k ∈ map fst cm \/ k ∈ map fst ps.
Proof.
  induction ps as [|[r x] ps IH]; intros cm; cbn [groupPairs fold_left map fst].
  - split; [by left | intros [?|H]; [done | by apply elem_of_nil in H]].
  - fold (groupPairs ps (pushCluster r x cm)). rewrite IH, keys_push.
    destruct (decide (r ∈ map fst cm)).
    + rewrite elem_of_cons. split; [tauto|]. intros [?|[->|?]]; tauto.
    + rewrite elem_of_app, list_elem_of_singleton, elem_of_cons. tauto.
Qed.

Lemma groupPairs_NoDup ps : forall cm,
  NoDup (map fst cm) -> NoDup (map fst (groupPairs ps cm)).
Proof.
  induction ps as [|[r x] ps IH]; intros cm Hnd; cbn [groupPairs fold_left]; [done|].
  apply IH. by apply keys_push_NoDup.
Qed.

Lemma members_lookup cm i k ids :
  NoDup (map fst cm) -> cm !! i = Some (k, ids) -> members k cm = ids.
Proof.
  revert i. induction cm as [|[k' ids'] rest IH]; intros i Hnd Hi; [done|].
  cbn [map fst] in Hnd. apply NoDup_cons in Hnd as [Hnotin Hnd].
  cbn [members]. destruct i as [|i]; cbn in Hi.
  - injection Hi as -> ->. by rewrite decide_True.
  - destruct (decide (k' = k)) as [->|?]; [|by eapply IH].
    exfalso. apply Hnotin. apply list_elem_of_fmap. exists (k, ids). split; [done|].
    by eapply list_elem_of_lookup_2.
Qed.

(** The grouping loop calls [find] once per node; the roots it sees
    are the roots of the map it starts from. *)
Lemma groupNodes_spec B fuel ns : forall p cm,
  uf_inv B p -> B < fuel ->
  (forall n, n ∈ ns -> is_Some (p !! id n)) ->
  exists ps,
    map snd ps = map id ns /\
    Forall (fun pr => reach p (snd pr) (fst pr)) ps /\
    groupNodes fuel p cm ns = Some (groupPairs ps cm).
Proof.
  induction ns as [|n ns IH]; intros p cm Hinv Hfuel Hdom; cbn [groupNodes].
  - exists []. by split_and!.
  - destruct (find_inv B p fuel (id n) Hinv Hfuel) as (r & p1 & Hf & _).
    destruct (find_same _ _ _ _ _ _ Hinv Hfuel Hf) as (Hinv1 & Hr & Hdom1 & Hback & _).
    rewrite Hf. cbn.
    destruct (IH p1 (pushCluster r (id n) cm) Hinv1 Hfuel) as (ps & Hids & Hreach & Hg).
    { intros m Hm. apply Hdom1. left. apply Hdom. by apply list_elem_of_further. }
    exists ((r, id n) :: ps). split_and!.
    + cbn. by rewrite Hids.
    + constructor.
      * cbn. apply Hback; [|done]. apply Hdom. apply list_elem_of_here.
      * apply Forall_forall. intros [k x] Hkx. cbn.
        rewrite Forall_forall in Hreach. specialize (Hreach _ Hkx). cbn in Hreach.
        apply Hback; [|done].
        assert (Hx : x ∈ map id ns).
        { rewrite <- Hids. apply list_elem_of_fmap. by exists (k, x). }
        apply list_elem_of_fmap in Hx as (m & -> & Hm).
        apply Hdom. by apply list_elem_of_further.
    + exact Hg.
Qed.

(** ** The connectivity analyzer computes the connected components *)

(** The three loops in terms of their invariants: the parent map
    after the unions has the connectivity classes of the links, and the
    result groups the node ids by their roots in that map. *)
Lemma findDisconnectedComponents_struct (data : GraphData) :
  exists p1 D1 ps,
    classes_of p1 D1 (map endpoints (links data)) /\
    (forall x, x ∈ map id (nodes data) -> x ∈ D1) /\
    map snd ps = map id (nodes data) /\
    Forall (fun pr => reach p1 (snd pr) (fst pr)) ps /\
    findDisconnectedComponents data = Some (map snd (groupPairs ps [])).
Proof.
  unfold findDisconnectedComponents, findDisconnectedComponents_fuel.
  set (fuel := S (length (links data))).
  destruct (initNodes_spec 0 fuel (nodes data) ∅ ∅ [] uf_inv_empty ltac:(lia) classes_empty)
    as (p0 & Hinit & Hinv0 & Hcl0).
  destruct (unionLinks_spec fuel (links data) 0 p0 _ [] Hinv0 ltac:(unfold fuel; lia) Hcl0)
    as (p1 & D1 & Hunion & Hinv1 & Hsub & Hcl1).
  cbn [app] in Hcl1. cbn [Nat.add] in Hinv1.
  assert (Hids : forall x, x ∈ map id (nodes data) -> x ∈ D1).
  { intros x Hx. apply Hsub. set_solver. }
  destruct (groupNodes_spec (length (links data)) fuel (nodes data) p1 [] Hinv1
              ltac:(unfold fuel; lia)) as (ps & Hsnd & Hreach & Hgroup).
  { intros n Hn. apply Hcl1, Hids. apply list_elem_of_fmap. by exists n. }
  rewrite Hinit. cbn. rewrite Hunion. cbn. rewrite Hgroup. cbn.
  exists p1, D1, ps. by split_and!.
Qed.

Lemma findDisconnectedComponents_spec (data : GraphData) :
  exists comps,
    findDisconnectedComponents data = Some comps /\
    Forall (fun c => c <> []) comps /\
    (forall i j c1 c2 x,
        comps !! i = Some c1 -> comps !! j = Some c2 -> x ∈ c1 -> x ∈ c2 -> i = j) /\
    (forall x, x ∈ map id (nodes data) <-> exists c, c ∈ comps /\ x ∈ c) /\
    (forall c x y, c ∈ comps -> x ∈ c ->
        (y ∈ c <-> y ∈ map id (nodes data) /\ conn (map endpoints (links data)) x y)).
Proof.
  destruct (findDisconnectedComponents_struct data)
    as (p1 & D1 & ps & (HD & HE & HS) & Hids & Hsnd & Hreach & Hres).
  rewrite Hres.
  set (cm := groupPairs ps []) in *.
  rewrite Forall_forall in Hreach.
  assert (Hnd : NoDup (map fst cm)) by (apply groupPairs_NoDup; constructor).
  assert (F1 : forall k x, x ∈ members k cm <-> (k, x) ∈ ps).
  { intros k x. unfold cm. rewrite groupPairs_members. cbn [members app].
    rewrite list_elem_of_fmap. split.
    - intros ([k' x'] & -> & Hin). apply list_elem_of_In, filter_In in Hin as [Hin Hk].
      apply bool_decide_eq_true in Hk. cbn in Hk. subst k'. by apply list_elem_of_In.
    - intros Hin. exists (k, x). split; [done|].
      apply list_elem_of_In, filter_In. split; [by apply list_elem_of_In|].
      by apply bool_decide_eq_true. }
  assert (F2 : forall k x, (k, x) ∈ ps -> reach p1 x k /\ x ∈ map id (nodes data)).
  { intros k x Hin. split; [exact (Hreach _ Hin)|].
    rewrite <- Hsnd. apply list_elem_of_fmap. by exists (k, x). }
  assert (F3 : forall x, x ∈ map id (nodes data) -> exists k, (k, x) ∈ ps).
  { intros x Hx. rewrite <- Hsnd in Hx. apply list_elem_of_fmap in Hx as ([k x'] & -> & Hin).
    by exists k. }
  assert (F4 : forall c, c ∈ map snd cm ->
                         exists k, k ∈ map fst ps /\ c = members k cm).
  { intros c Hc. apply list_elem_of_fmap in Hc as ([k c'] & -> & Hin).
    apply list_elem_of_lookup in Hin as [i Hi].
    exists k. split.
    - assert (Hk : k ∈ map fst cm).
      { apply list_elem_of_fmap. exists (k, c'). split; [done|].
        by eapply list_elem_of_lookup_2. }
      unfold cm in Hk. apply groupPairs_keys in Hk as [Hk|Hk]; [|done].
      by apply elem_of_nil in Hk.
    - symmetry. by eapply members_lookup. }
  assert (F5 : forall k x, (k, x) ∈ ps -> members k cm ∈ map snd cm).
  { intros k x Hin.
    assert (Hk : k ∈ map fst cm).
    { unfold cm. apply groupPairs_keys. right. apply list_elem_of_fmap. by exists (k, x). }
    apply list_elem_of_fmap in Hk as ([k' c] & -> & Hin').
    apply list_elem_of_lookup in Hin' as [i Hi].
    apply list_elem_of_fmap. exists (k', c). split; [|by eapply list_elem_of_lookup_2].
    by eapply members_lookup. }
  eexists. split; [reflexivity|]. split_and!.
  - apply Forall_forall. intros c Hc Hnil.
    destruct (F4 c Hc) as (k & Hk & ->).
    apply list_elem_of_fmap in Hk as ([k' x] & -> & Hin).
    apply F1 in Hin. cbn [fst] in Hnil. rewrite Hnil in Hin. by apply elem_of_nil in Hin.
  - intros i j c1 c2 x Hi Hj H1 H2.
    rewrite list_lookup_fmap in Hi, Hj.
    destruct (cm !! i) as [[k1 c1']|] eqn:Ei; [|done].
    destruct (cm !! j) as [[k2 c2']|] eqn:Ej; [|done].
    cbn in Hi, Hj. injection Hi as ->. injection Hj as ->.
    rewrite <- (members_lookup _ _ _ _ Hnd Ei) in H1.
    rewrite <- (members_lookup _ _ _ _ Hnd Ej) in H2.
    apply F1, F2 in H1 as [H1 _]. apply F1, F2 in H2 as [H2 _].
    pose proof (reach_fun _ _ _ _ H1 H2) as ->.
    eapply NoDup_lookup; [exact Hnd | |].
    + rewrite list_lookup_fmap, Ei. reflexivity.
    + rewrite list_lookup_fmap, Ej. reflexivity.
  - intros x. split.
    + intros Hx. destruct (F3 x Hx) as [k Hk].
      exists (members k cm). split; [by eapply F5 | by apply F1].
    + intros (c & Hc & Hx). destruct (F4 c Hc) as (k & _ & ->).
      by apply F1, F2 in Hx as [_ ?].
  - intros c x y Hc Hx. destruct (F4 c Hc) as (k & _ & ->).
    apply F1, F2 in Hx as [Hx Hxid]. rewrite F1. split.
    + intros Hy. apply F2 in Hy as [Hy Hyid]. split; [done|].
      apply HS. by exists k.
    + intros [Hyid Hc'].
      destruct (F3 y Hyid) as [k' Hk'].
      pose proof (F2 _ _ Hk') as [Hy _].
      assert (Hsame : same p1 x y) by (apply HS; auto).
      destruct Hsame as (r & Hxr & Hyr).
      rewrite (reach_fun _ _ _ _ Hx Hxr), <- (reach_fun _ _ _ _ Hy Hyr). done.
Qed.

(** The answer does not depend on the fuel once there is enough. *)
Lemma initNodes_fuel_mono fuel fuel' ns : forall p res,
  fuel <= fuel' -> initNodes fuel p ns = Some res -> initNodes fuel' p ns = Some res.
Proof.
  induction ns as [|n ns IH]; intros p res Hle H; cbn [initNodes] in *; [done|].
  destruct (find fuel p (id n)) as [[r p1]|] eqn:Hf; [|done].
  rewrite (find_fuel_mono _ _ _ _ _ Hf Hle). cbn in *. by apply IH.
Qed.

Lemma unionLinks_fuel_mono fuel fuel' ls : forall p res,
  fuel <= fuel' -> unionLinks fuel p ls = Some res -> unionLinks fuel' p ls = Some res.
Proof.
  induction ls as [|l ls IH]; intros p res Hle H; cbn [unionLinks] in *; [done|].
  unfold union in *.
  destruct (find fuel p (getNodeId (source l))) as [[r1 p1]|] eqn:Hf1; [|done].
  rewrite (find_fuel_mono _ _ _ _ _ Hf1 Hle). cbn in *.
  destruct (find fuel p1 (getNodeId (target l))) as [[r2 p2]|] eqn:Hf2; [|done].
  rewrite (find_fuel_mono _ _ _ _ _ Hf2 Hle). cbn in *. by apply IH.
Qed.

Lemma groupNodes_fuel_mono fuel fuel' ns : forall p cm res,
  fuel <= fuel' -> groupNodes fuel p cm ns = Some res -> groupNodes fuel' p cm ns = Some res.
Proof.
  induction ns as [|n ns IH]; intros p cm res Hle H; cbn [groupNodes] in *; [done|].
  destruct (find fuel p (id n)) as [[r p1]|] eqn:Hf; [|done].
  rewrite (find_fuel_mono _ _ _ _ _ Hf Hle). cbn in *. by apply IH.
Qed.

Lemma findDisconnectedComponents_fuel_mono (data : GraphData) (fuel : nat) :
  S (length (links data)) <= fuel ->
  findDisconnectedComponents_fuel fuel data = findDisconnectedComponents data.
Proof.
  intros Hle.
  destruct (findDisconnectedComponents_spec data) as (comps & Hc & _).
  rewrite Hc. unfold findDisconnectedComponents, findDisconnectedComponents_fuel in *.
  destruct (initNodes _ _ _) as [p0|] eqn:H0; [|done].
  rewrite (initNodes_fuel_mono _ _ _ _ _ Hle H0). cbn in *.
  destruct (unionLinks _ _ _) as [p1|] eqn:H1; [|done].
  rewrite (unionLinks_fuel_mono _ _ _ _ _ Hle H1). cbn in *.
  destruct (groupNodes _ _ _ _) as [cm|] eqn:H2; [|done].
  rewrite (groupNodes_fuel_mono _ _ _ _ _ _ Hle H2). cbn in *. done.
Qed.

Lemma conn_nil x y : conn [] x y -> x = y.
Proof.
  destruct 1 as [|x w y [H|H] _]; [done | by apply elem_of_nil in H | by apply elem_of_nil in H].
Qed.

Lemma pushCluster_fresh r x cm :
  r ∉ map fst cm -> pushCluster r x cm = cm ++ [(r, [x])].
Proof.
  induction cm as [|[k ids] rest IH]; intros Hnin; cbn [pushCluster app]; [done|].
  cbn [map fst] in Hnin. apply not_elem_of_cons in Hnin as [Hne Hnin].
  rewrite decide_False by congruence. by rewrite IH.
Qed.

Lemma groupPairs_self ids : forall cm,
  NoDup ids -> (forall x, x ∈ ids -> x ∉ map fst cm) ->
  groupPairs (map (fun x => (x, x)) ids) cm = cm ++ map (fun x => (x, [x])) ids.
Proof.
  induction ids as [|x ids IH]; intros cm Hnd Hfresh; cbn [groupPairs map fold_left fst snd].
  - by rewrite app_nil_r.
  - apply NoDup_cons in Hnd as [Hx Hnd].
    fold (groupPairs (map (fun x => (x, x)) ids) (pushCluster x x cm)).
    rewrite pushCluster_fresh by (apply Hfresh, list_elem_of_here).
    rewrite IH; [by rewrite <- app_assoc | done |].
    intros y Hy. rewrite map_app. cbn [map fst]. rewrite not_elem_of_app. split.
    + apply Hfresh. by apply list_elem_of_further.
    + rewrite list_elem_of_singleton. by intros ->.
Qed.

(** Without links every node is its own component, in input order,
    provided that the node ids are pairwise distinct. *)
Lemma components_no_links (data : GraphData) :
  links data = [] -> NoDup (map id (nodes data)) ->
  findDisconnectedComponents data = Some (map (fun n => [id n]) (nodes data)).
Proof.
  intros Hl Hnd.
  destruct (findDisconnectedComponents_struct data)
    as (p1 & D1 & ps & (HD & HE & HS) & Hids & Hsnd & Hreach & ->).
  rewrite Hl in HS. cbn [map] in HS.
  assert (Hps : ps = map (fun x => (x, x)) (map snd ps)).
  { clear Hsnd. induction Hreach as [|[k x] ps Hkx _ IH]; [done|].
    cbn [map snd fst] in *. rewrite <- IH. f_equal. f_equal.
    symmetry. apply conn_nil. apply HS. exists k. split; [done|].
    constructor. by eapply reach_is_root. }
  rewrite Hps, Hsnd, groupPairs_self; [|done|intros ? _; apply not_elem_of_nil].
  cbn [app]. rewrite !map_map. reflexivity.
Qed.

(** A link from a node to an unknown identifier, and two nodes that
    share an id. *)
Lemma components_dangling_and_duplicate :
  (let g := {| nodes := [sampleNode "A"]; links := [sampleLink "A" "Z" "cites"] |} in
   findDisconnectedComponents g = Some [["A"]] /\
   ~ (exists c, c ∈ [["A"]] /\ "A" ∈ c /\ "Z" ∈ c)) /\
  (let g := {| nodes := [sampleNode "A"; sampleNode "A"]; links := [] |} in
   findDisconnectedComponents g = Some [["A"; "A"]] /\
   [["A"; "A"]] <> map (fun n => [id n]) (nodes g)).
Proof.
  split; (split; [vm_compute; reflexivity|]).
  - intros (c & Hc & _ & HZ).
    apply list_elem_of_singleton in Hc. subst c.
    apply list_elem_of_singleton in HZ. discriminate HZ.
  - discriminate.
Qed.

(** C9 (as amended): [findDisconnectedComponents] returns, for every
    graph, a list of components that are pairwise disjoint and whose
    union is exactly the set of node ids.  Every link whose two
    resolved endpoints are node ids has them in one component (an
    endpoint that is not a node id is in no component).  A graph with
    no links and pairwise distinct node ids yields one singleton
    component per node, in input order; a graph with one node and no
    links yields a single singleton component. *)
Theorem findDisconnectedComponents_partition (data : GraphData) :
  exists comps,
    findDisconnectedComponents data = Some comps /\
    (forall i j c1 c2 x,
        comps !! i = Some c1 -> comps !! j = Some c2 -> x ∈ c1 -> x ∈ c2 -> i = j) /\
    (forall x, x ∈ map id (nodes data) <-> exists c, c ∈ comps /\ x ∈ c) /\
    Forall (fun l =>
              getNodeId (source l) ∈ map id (nodes data) ->
              getNodeId (target l) ∈ map id (nodes data) ->
              exists c, c ∈ comps /\ getNodeId (source l) ∈ c /\ getNodeId (target l) ∈ c)
           (links data) /\
    (links data = [] -> NoDup (map id (nodes data)) ->
     comps = map (fun n => [id n]) (nodes data)) /\
    (forall n, nodes data = [n] -> links data = [] -> comps = [[id n]]).
Proof.
  destruct (findDisconnectedComponents_spec data)
    as (comps & Hres & _ & Hdisj & Hcover & Hexact).
  exists comps. split_and!; auto.
  - apply Forall_forall. intros l Hl Hs Ht.
    apply Hcover in Hs as (c & Hc & Hs).
    exists c. split_and!; auto.
    apply (Hexact c _ _ Hc Hs). split; [done|].
    apply rtc_once. left. apply list_elem_of_fmap. by exists l.
  - intros Hl Hnd. pose proof (components_no_links data Hl Hnd) as H.
    rewrite Hres in H. by injection H.
  - intros n Hn Hl.
    assert (Hnd : NoDup (map id (nodes data))) by (rewrite Hn; apply NoDup_singleton).
    pose proof (components_no_links data Hl Hnd) as H.
    rewrite Hres, Hn in H. by injection H.
Qed.

Lemma findDisconnectedComponents_partition_witness :
  exists comps,
    findDisconnectedComponents
      {| nodes := [sampleNode "A"; sampleNode "B"; sampleNode "C"];
         links := [sampleLink "A" "B" "uses"] |} = Some comps /\
    (exists c, c ∈ comps /\ "A" ∈ c /\ "B" ∈ c) /\
    findDisconnectedComponents
      {| nodes := [sampleNode "A"; sampleNode "B"; sampleNode "C"]; links := [] |}
      = Some [["A"]; ["B"]; ["C"]] /\
    findDisconnectedComponents {| nodes := [sampleNode "A"]; links := [] |} = Some [["A"]].
Proof.
  destruct (findDisconnectedComponents_partition
              {| nodes := [sampleNode "A"; sampleNode "B"; sampleNode "C"];
                 links := [sampleLink "A" "B" "uses"] |})
    as (comps & Hres & _ & _ & Hlinks & _ & _).
  destruct (findDisconnectedComponents_partition
              {| nodes := [sampleNode "A"; sampleNode "B"; sampleNode "C"]; links := [] |})
    as (comps0 & Hres0 & _ & _ & _ & Hnone & _).
  destruct (findDisconnectedComponents_partition
              {| nodes := [sampleNode "A"]; links := [] |})
    as (comps1 & Hres1 & _ & _ & _ & _ & Hone).
  exists comps. split_and!.
  - exact Hres.
  - apply Forall_inv in Hlinks. apply Hlinks; cbn; set_solver.
  - rewrite Hres0. f_equal. apply Hnone; [reflexivity|].
    cbn. repeat (constructor; [set_solver|]). constructor.
  - rewrite Hres1. f_equal. by apply (Hone (sampleNode "A")).
Defined.

(** ** Unification orchestrator *)

Lemma findDisconnectedComponents_total (data : GraphData) :
  exists comps, findDisconnectedComponents data = Some comps.
Proof. destruct (findDisconnectedComponents_spec data) as (comps & H & _). eauto. Qed.

Lemma findBridgesBetweenClusters_returns gemini data clusters :
  exists candidates, findBridgesBetweenClusters gemini data clusters = Returned candidates.
Proof. unfold findBridgesBetweenClusters. destruct (gemini _); eauto. Qed.

Lemma stale_merge_fold keys newLinks : forall acc n,
  fold_left (Stale.mergeStep keys) newLinks (acc, n) =
    (acc ++ List.filter (staleAccepted keys) newLinks,
     n + length (List.filter (staleAccepted keys) newLinks)).
Proof.
  induction newLinks as [|l ls IH]; intros acc n; cbn [fold_left List.filter].
  - by rewrite app_nil_r, Nat.add_0_r.
  - assert (Hstep : Stale.mergeStep keys (acc, n) l =
                    if staleAccepted keys l then (acc ++ [l], S n) else (acc, n)).
    { unfold Stale.mergeStep, staleAccepted.
      by destruct (bool_decide (Stale.candidateKey l ∈ keys)). }
    rewrite Hstep. destruct (staleAccepted keys l); rewrite IH.
    + cbn [length]. rewrite <- app_assoc. f_equal. lia.
    + done.
Qed.

Lemma revised_merge_fold nodeIds keys newLinks : forall acc n,
  fold_left (Revised.mergeStep nodeIds keys) newLinks (acc, n) =
    (acc ++ List.filter (revisedAccepted nodeIds keys) newLinks,
     n + length (List.filter (revisedAccepted nodeIds keys) newLinks)).
Proof.
  induction newLinks as [|l ls IH]; intros acc n; cbn [fold_left List.filter].
  - by rewrite app_nil_r, Nat.add_0_r.
  - assert (Hstep : Revised.mergeStep nodeIds keys (acc, n) l =
                    if revisedAccepted nodeIds keys l then (acc ++ [l], S n) else (acc, n)).
    { unfold Revised.mergeStep, revisedAccepted, knownEndpoints.
      by destruct (bool_decide (getNodeId (source l) ∈ nodeIds)),
                  (bool_decide (getNodeId (target l) ∈ nodeIds)),
                  (bool_decide (Revised.candidateKey l ∈ keys)). }
    rewrite Hstep. destruct (revisedAccepted nodeIds keys l); rewrite IH.
    + cbn [length]. rewrite <- app_assoc. f_equal. lia.
    + done.
Qed.

(** What [unifyGraph] returns, by revision: below two clusters the
    input itself, otherwise the input's nodes and its links followed by
    the accepted candidates. *)
Lemma stale_unifyGraph_shape gemini data :
  exists clusters candidates,
    findDisconnectedComponents data = Some clusters /\
    findBridgesBetweenClusters gemini data clusters = Returned candidates /\
    Stale.unifyGraph gemini data =
      Some (Returned
        (if length clusters <=? 1 then
           {| unifiedData := data; addedLinksCount := 0;
              clustersCount := length clusters; validation := validateGraph data |}
         else
           let added :=
             List.filter (staleAccepted (existingLinkKeysOf (links data))) candidates in
           {| unifiedData := {| nodes := nodes data; links := links data ++ added |};
              addedLinksCount := length added;
              clustersCount := length clusters;
              validation := validateGraph data |})).
Proof.
  destruct (findDisconnectedComponents_total data) as [clusters Hc].
  destruct (findBridgesBetweenClusters_returns gemini data clusters) as [candidates Hb].
  exists clusters, candidates. split_and!; auto.
  unfold Stale.unifyGraph. rewrite Hc. cbn.
  destruct (length clusters <=? 1); [done|].
  rewrite Hb, stale_merge_fold. reflexivity.
Qed.

Lemma revised_unifyGraph_shape gemini data :
  exists clusters candidates finalClusters,
    findDisconnectedComponents data = Some clusters /\
    findBridgesBetweenClusters gemini data clusters = Returned candidates /\
    let added :=
      List.filter (revisedAccepted (nodeIdSet (nodes data)) (existingLinkKeysOf (links data)))
                  candidates in
    let merged := {| nodes := nodes data; links := links data ++ added |} in
    findDisconnectedComponents merged = Some finalClusters /\
    Revised.unifyGraph gemini data =
      Some (Returned
        (if length clusters <=? 1 then
           {| unifiedData := data; addedLinksCount := 0;
              clustersCount := length clusters; validation := validateGraph data |}
         else
           {| unifiedData := merged;
              addedLinksCount := length added;
              clustersCount := length finalClusters;
              validation := validateGraph data |})).
Proof.
  destruct (findDisconnectedComponents_total data) as [clusters Hc].
  destruct (findBridgesBetweenClusters_returns gemini data clusters) as [candidates Hb].
  set (added := List.filter (revisedAccepted (nodeIdSet (nodes data))
                               (existingLinkKeysOf (links data))) candidates).
  destruct (findDisconnectedComponents_total
              {| nodes := nodes data; links := links data ++ added |}) as [finalClusters Hf].
  exists clusters, candidates, finalClusters. split_and!; auto.
  cbn zeta. fold added. split; [exact Hf|].
  unfold Revised.unifyGraph. rewrite Hc. cbn.
  destruct (length clusters <=? 1); [done|].
  rewrite Hb, revised_merge_fold. fold added. cbn. rewrite Hf. reflexivity.
Qed.

Lemma revisedAccepted_known nodeIds keys l :
  revisedAccepted nodeIds keys l = true ->
  getNodeId (source l) ∈ nodeIds /\ getNodeId (target l) ∈ nodeIds /\
  Revised.candidateKey l ∉ keys.
Proof.
  unfold revisedAccepted, knownEndpoints. intros H.
  apply andb_prop in H as [H Hk]. apply andb_prop in H as [Hs Ht].
  apply bool_decide_eq_true in Hs, Ht. apply negb_true_iff, bool_decide_eq_false in Hk.
  done.
Qed.

Lemma Forall_filter_In {A} (f : A -> bool) (l : list A) :
  Forall (fun x => x ∈ l /\ f x = true) (List.filter f l).
Proof.
  apply Forall_forall. intros x Hx. apply list_elem_of_In, filter_In in Hx as [Hx Hf].
  split; [by apply list_elem_of_In | done].
Qed.

(** *** The later revision *)

(** The endpoint guard of the later revision: whatever the bridging
    capability returns, every link that [unifyGraph] appends to the
    input's links has both resolved endpoints among the node ids. *)
Theorem revised_unifyGraph_rejects_unknown_endpoints
    (gemini : string -> BridgeReply) (data : GraphData) :
  exists r added,
    Revised.unifyGraph gemini data = Some (Returned r) /\
    links (unifiedData r) = links data ++ added /\
    Forall (fun l => getNodeId (source l) ∈ map id (nodes data) /\
                     getNodeId (target l) ∈ map id (nodes data)) added.
Proof.
  destruct (revised_unifyGraph_shape gemini data)
    as (clusters & candidates & finalClusters & _ & _ & _ & Hu).
  rewrite Hu. destruct (length clusters <=? 1).
  - eexists _, []. split_and!; [reflexivity | by rewrite app_nil_r | constructor].
  - eexists _, _. split_and!; [reflexivity | reflexivity |].
    eapply Forall_impl; [apply Forall_filter_In|].
    intros l [_ Hl]. apply revisedAccepted_known in Hl as (Hs & Ht & _).
    unfold nodeIdSet in Hs, Ht. rewrite elem_of_list_to_set in Hs, Ht. done.
Qed.

(** The recomputed count of the later revision: the reported
    [clustersCount] is the number of components that the connectivity
    analyzer finds in the returned graph, and these are the
    connectivity classes of its links on its node ids. *)
Theorem revised_unifyGraph_counts_merged_clusters
    (gemini : string -> BridgeReply) (data : GraphData) :
  exists r comps,
    Revised.unifyGraph gemini data = Some (Returned r) /\
    findDisconnectedComponents (unifiedData r) = Some comps /\
    clustersCount r = length comps /\
    (forall i j c1 c2 x,
        comps !! i = Some c1 -> comps !! j = Some c2 -> x ∈ c1 -> x ∈ c2 -> i = j) /\
    (forall x, x ∈ map id (nodes (unifiedData r)) <-> exists c, c ∈ comps /\ x ∈ c) /\
    (forall c x y, c ∈ comps -> x ∈ c ->
       (y ∈ c <-> y ∈ map id (nodes (unifiedData r)) /\
                  conn (map endpoints (links (unifiedData r))) x y)).
Proof.
  destruct (revised_unifyGraph_shape gemini data)
    as (clusters & candidates & finalClusters & Hc & _ & Hf & Hu).
  cbn zeta in Hf, Hu. rewrite Hu. destruct (length clusters <=? 1).
  - destruct (findDisconnectedComponents_spec data) as (comps & Hres & _ & H1 & H2 & H3).
    rewrite Hc in Hres. injection Hres as <-.
    eexists _, clusters. split_and!; try reflexivity; auto.
  - match type of Hf with findDisconnectedComponents ?g = _ =>
      destruct (findDisconnectedComponents_spec g) as (comps & Hres & _ & H1 & H2 & H3)
    end.
    rewrite Hf in Hres. injection Hres as <-.
    eexists _, finalClusters. split_and!; try reflexivity; auto.
Qed.

(** *** The earlier revision *)

(** C1 fails on the earlier revision, which has no endpoint guard: a
    candidate that points at the unknown identifier "Q" is appended to
    the link list and counted. *)
Lemma stale_unifyGraph_keeps_unknown_endpoint :
  let g := {| nodes := [sampleNode "A"; sampleNode "B"]; links := [] |} in
  let candidate := sampleLink "A" "Q" "related_to" in
  ("Q" ∉ map id (nodes g)) /\
  exists r,
    Stale.unifyGraph (fun _ => Parsed [candidate]) g = Some (Returned r) /\
    links (unifiedData r) = [candidate] /\
    addedLinksCount r = 1.
Proof.
  cbn zeta. split.
  - cbn. set_solver.
  - eexists. split_and!; [vm_compute; reflexivity | reflexivity | reflexivity].
Qed.

(** C2 fails on the earlier revision, which reports the clusters found
    before the merge: two isolated nodes are bridged, the merged graph
    has one component, the reported count is still two. *)
Lemma stale_unifyGraph_reports_stale_count :
  let g := {| nodes := [sampleNode "A"; sampleNode "B"]; links := [] |} in
  let candidate := sampleLink "A" "B" "related_to" in
  findDisconnectedComponents g = Some [["A"]; ["B"]] /\
  exists r,
    Stale.unifyGraph (fun _ => Parsed [candidate]) g = Some (Returned r) /\
    links (unifiedData r) = [candidate] /\
    findDisconnectedComponents (unifiedData r) = Some [["A"; "B"]] /\
    clustersCount r = 2.
Proof.
  cbn zeta. split; [vm_compute; reflexivity|].
  eexists. split_and!; [vm_compute; reflexivity | reflexivity | vm_compute; reflexivity | reflexivity].
Qed.

(** *** Both revisions *)

(** Two equal candidates whose key is new are both appended. *)
Lemma unifyGraph_appends_equal_candidates :
  let g := {| nodes := [sampleNode "A"; sampleNode "B"]; links := [] |} in
  let candidate := sampleLink "A" "B" "related_to" in
  let gemini := fun _ : string => Parsed [candidate; candidate] in
  (exists r, Revised.unifyGraph gemini g = Some (Returned r) /\
             links (unifiedData r) = [candidate; candidate] /\ addedLinksCount r = 2) /\
  (exists r, Stale.unifyGraph gemini g = Some (Returned r) /\
             links (unifiedData r) = [candidate; candidate] /\ addedLinksCount r = 2).
Proof.
  cbn zeta. split; eexists; (split_and!; [vm_compute; reflexivity | reflexivity | reflexivity]).
Qed.

(** C3 (as amended): in the merge step a candidate is appended only if
    its key is not among the keys of the links that the graph already
    has; the key set is not extended while candidates are accepted, so
    candidates are not compared with one another.  The appended links
    are exactly the candidates that pass this test (and, in the guarded
    revision, the endpoint test), in order, and [addedLinksCount] is
    their number: a candidate whose key exists in the graph increases
    neither the link list nor the count. *)
Theorem unifyGraph_dedup_against_existing
    (gemini : string -> BridgeReply) (data : GraphData) :
  (exists r clusters candidates added,
     Revised.unifyGraph gemini data = Some (Returned r) /\
     findDisconnectedComponents data = Some clusters /\
     findBridgesBetweenClusters gemini data clusters = Returned candidates /\
     added = (if length clusters <=? 1 then []
              else List.filter (revisedAccepted (nodeIdSet (nodes data))
                                  (existingLinkKeysOf (links data))) candidates) /\
     links (unifiedData r) = links data ++ added /\
     addedLinksCount r = length added /\
     Forall (fun l => Revised.candidateKey l ∉ existingLinkKeysOf (links data)) added) /\
  (exists r clusters candidates added,
     Stale.unifyGraph gemini data = Some (Returned r) /\
     findDisconnectedComponents data = Some clusters /\
     findBridgesBetweenClusters gemini data clusters = Returned candidates /\
     added = (if length clusters <=? 1 then []
              else List.filter (staleAccepted (existingLinkKeysOf (links data))) candidates) /\
     links (unifiedData r) = links data ++ added /\
     addedLinksCount r = length added /\
     Forall (fun l => Stale.candidateKey l ∉ existingLinkKeysOf (links data)) added).
Proof.
  split.
  - destruct (revised_unifyGraph_shape gemini data)
      as (clusters & candidates & finalClusters & Hc & Hb & _ & Hu).
    eexists _, clusters, candidates, _.
    split; [exact Hu|]. split; [exact Hc|]. split; [exact Hb|]. split; [reflexivity|].
    destruct (length clusters <=? 1); cbn.
    + split_and!; [by rewrite app_nil_r | done | constructor].
    + split_and!; [done | done |].
      eapply Forall_impl; [apply Forall_filter_In|].
      intros l [_ Hl]. by apply revisedAccepted_known in Hl as (_ & _ & ?).
  - destruct (stale_unifyGraph_shape gemini data) as (clusters & candidates & Hc & Hb & Hu).
    eexists _, clusters, candidates, _.
    split; [exact Hu|]. split; [exact Hc|]. split; [exact Hb|]. split; [reflexivity|].
    destruct (length clusters <=? 1); cbn.
    + split_and!; [by rewrite app_nil_r | done | constructor].
    + split_and!; [done | done |].
      eapply Forall_impl; [apply Forall_filter_In|].
      intros l [_ Hl]. unfold staleAccepted in Hl.
      by apply negb_true_iff, bool_decide_eq_false in Hl.
Qed.

(** C10: in both revisions the returned graph has exactly the input's
    node list, and its link list is the input's link list followed by
    appended links, each of which is one of the candidates, unchanged. *)
Theorem unifyGraph_preserves_existing
    (gemini : string -> BridgeReply) (data : GraphData) :
  (exists r clusters candidates added,
     Revised.unifyGraph gemini data = Some (Returned r) /\
     findDisconnectedComponents data = Some clusters /\
     findBridgesBetweenClusters gemini data clusters = Returned candidates /\
     nodes (unifiedData r) = nodes data /\
     links (unifiedData r) = links data ++ added /\
     Forall (fun l => l ∈ candidates) added /\
     length (links (unifiedData r)) = length (links data) + addedLinksCount r) /\
  (exists r clusters candidates added,
     Stale.unifyGraph gemini data = Some (Returned r) /\
     findDisconnectedComponents data = Some clusters /\
     findBridgesBetweenClusters gemini data clusters = Returned candidates /\
     nodes (unifiedData r) = nodes data /\
     links (unifiedData r) = links data ++ added /\
     Forall (fun l => l ∈ candidates) added /\
     length (links (unifiedData r)) = length (links data) + addedLinksCount r).
Proof.
  split.
  - destruct (revised_unifyGraph_shape gemini data)
      as (clusters & candidates & finalClusters & Hc & Hb & _ & Hu).
    cbn zeta in Hu. rewrite Hu. destruct (length clusters <=? 1).
    + eexists _, clusters, candidates, [].
      split_and!; cbn; rewrite ?app_nil_r; try done; lia.
    + eexists _, clusters, candidates, _.
      split; [reflexivity|]. split; [exact Hc|]. split; [exact Hb|].
      split; [reflexivity|]. split; [reflexivity|]. split.
      * eapply Forall_impl; [apply Forall_filter_In|]. by intros l [? _].
      * cbn. by rewrite length_app.
  - destruct (stale_unifyGraph_shape gemini data) as (clusters & candidates & Hc & Hb & Hu).
    cbn zeta in Hu. rewrite Hu. destruct (length clusters <=? 1).
    + eexists _, clusters, candidates, [].
      split_and!; cbn; rewrite ?app_nil_r; try done; lia.
    + eexists _, clusters, candidates, _.
      split; [reflexivity|]. split; [exact Hc|]. split; [exact Hb|].
      split; [reflexivity|]. split; [reflexivity|]. split.
      * eapply Forall_impl; [apply Forall_filter_In|]. by intros l [? _].
      * cbn. by rewrite length_app.
Qed.

(** ** Refinement handler and the failure of the bridging call *)

Lemma findBridgesBetweenClusters_request_failed gemini data clusters :
  (forall prompt, gemini prompt = RequestFailed) ->
  findBridgesBetweenClusters gemini data clusters = Returned [].
Proof. intros H. unfold findBridgesBetweenClusters. by rewrite H. Qed.

(** A failed request ends the refinement like an answer without
    candidates: no toast, the modal reports completion. *)
Lemma handleRefineGraph_hides_request_failure :
  let g := {| nodes := [sampleNode "A"; sampleNode "B"]; links := [] |} in
  let app := {| graphData := g;
                stats := Some {| nodeCount := 2; linkCount := 0; processingTimeMs := 12 |};
                toast := None;
                isRefining := false;
                refinementModal := {| isOpen := false; state := PREPARING;
                                      before := None; after := None |} |} in
  findBridgesBetweenClusters (fun _ => RequestFailed) g [["A"]; ["B"]] = Returned [] /\
  handleRefineGraph (fun _ => RequestFailed) false app
    = handleRefineGraph (fun _ => NoText) false app /\
  exists app',
    handleRefineGraph (fun _ => RequestFailed) false app = Some app' /\
    graphData app' = g /\
    toast app' = None /\
    refinementModal app' =
      {| isOpen := true; state := COMPLETED;
         before := Some {| beforeNodes := 2; beforeLinks := 0; beforeClusters := 2 |};
         after := Some {| afterNodes := 2; afterLinks := 0; afterClusters := 2;
                          addedLinks := 0 |} |}.
Proof.
  cbn zeta. split; [reflexivity|]. split; [vm_compute; reflexivity|].
  eexists. split_and!; [vm_compute; reflexivity | reflexivity | reflexivity | reflexivity].
Qed.

(** C4 (as amended): when the request of the bridging call fails,
    [findBridgesBetweenClusters] catches the error and returns the
    empty candidate list, and the refinement completes as a run that
    added nothing: the caller's graph, the statistics and the toast
    slot are left as they were, no merge is installed, and the modal
    ends in the [COMPLETED] state with zero added links and the
    unchanged cluster count. *)
Theorem handleRefineGraph_on_request_failure
    (gemini : string -> BridgeReply) (timerFired : bool) (app : AppModel) :
  (forall prompt, gemini prompt = RequestFailed) ->
  hasGraph app = true ->
  isRefining app = false ->
  exists app' clusters,
    handleRefineGraph gemini timerFired app = Some app' /\
    findDisconnectedComponents (graphData app) = Some clusters /\
    findBridgesBetweenClusters gemini (graphData app) clusters = Returned [] /\
    graphData app' = graphData app /\
    stats app' = stats app /\
    toast app' = toast app /\
    isRefining app' = false /\
    refinementModal app' =
      {| isOpen := true; state := COMPLETED;
         before := Some {| beforeNodes := length (nodes (graphData app));
                           beforeLinks := length (links (graphData app));
                           beforeClusters := length clusters |};
         after := Some {| afterNodes := length (nodes (graphData app));
                          afterLinks := length (links (graphData app));
                          afterClusters := length clusters;
                          addedLinks := 0 |} |}.
Proof.
  intros Hfail Hgraph Hidle.
  destruct (revised_unifyGraph_shape gemini (graphData app))
    as (clusters & candidates & finalClusters & Hc & Hb & Hf & Hu).
  rewrite (findBridgesBetweenClusters_request_failed _ _ _ Hfail) in Hb.
  injection Hb as <-. cbn in Hf, Hu.
  rewrite app_nil_r in Hf, Hu.
  assert (Hsame : finalClusters = clusters).
  { destruct (graphData app) as [ns ls]. cbn in *. congruence. }
  subst finalClusters.
  exists
    {| graphData := graphData app; stats := stats app; toast := toast app;
       isRefining := false;
       refinementModal :=
         {| isOpen := true; state := COMPLETED;
            before := Some {| beforeNodes := length (nodes (graphData app));
                              beforeLinks := length (links (graphData app));
                              beforeClusters := length clusters |};
            after := Some {| afterNodes := length (nodes (graphData app));
                             afterLinks := length (links (graphData app));
                             afterClusters := length clusters;
                             addedLinks := 0 |} |} |}, clusters.
  split_and!; try reflexivity; auto using findBridgesBetweenClusters_request_failed.
  unfold handleRefineGraph. rewrite Hgraph, Hidle, Hc. cbn. rewrite Hu. cbn.
  destruct (length clusters <=? 1), timerFired; reflexivity.
Qed.

Lemma handleRefineGraph_on_request_failure_witness :
  exists app' clusters,
    handleRefineGraph (fun _ => RequestFailed) true
      {| graphData := {| nodes := [sampleNode "A"; sampleNode "B"]; links := [] |};
         stats := None; toast := None; isRefining := false;
         refinementModal := {| isOpen := false; state := PREPARING;
                               before := None; after := None |} |} = Some app' /\
    findDisconnectedComponents {| nodes := [sampleNode "A"; sampleNode "B"]; links := [] |}
      = Some clusters /\
    toast app' = None /\
    state (refinementModal app') = COMPLETED.
Proof.
  destruct (handleRefineGraph_on_request_failure (fun _ => RequestFailed) true
              {| graphData := {| nodes := [sampleNode "A"; sampleNode "B"]; links := [] |};
                 stats := None; toast := None; isRefining := false;
                 refinementModal := {| isOpen := false; state := PREPARING;
                                       before := None; after := None |} |})
    as (app' & clusters & H1 & H2 & _ & _ & _ & H3 & _ & H4);
    [reflexivity | reflexivity | reflexivity |].
  exists app', clusters. split_and!; [exact H1 | exact H2 | exact H3 | by rewrite H4].
Defined.

(** * Further properties *)

(** ** Structural validator *)

Lemma validateLink_length nodeIds i l :
  length (validateLink nodeIds i l) = missingEndpoints nodeIds l.
Proof.
  unfold validateLink, missingEndpoints.
  by destruct (bool_decide (getNodeId (source l) ∈ nodeIds)),
              (bool_decide (getNodeId (target l) ∈ nodeIds)).
Qed.

Lemma concat_imap_length {A B} (f : nat -> A -> list B) (m : A -> nat) (l : list A) :
  (forall i x, length (f i x) = m x) ->
  length (concat (imap f l)) = sum_list (map m l).
Proof.
  revert f. induction l as [|x l IH]; intros f Hf; cbn; [done|].
  rewrite length_app, Hf, (IH (f ∘ S)); [done|]. intros i y. apply Hf.
Qed.

Lemma knownEndpoints_missing nodeIds l :
  knownEndpoints nodeIds l = true <-> missingEndpoints nodeIds l = 0.
Proof.
  unfold knownEndpoints, missingEndpoints.
  destruct (bool_decide (getNodeId (source l) ∈ nodeIds)),
           (bool_decide (getNodeId (target l) ∈ nodeIds)); cbn; split; (done || lia).
Qed.

Lemma knownEndpoints_spec nodeIds l :
  knownEndpoints nodeIds l = true <->
  getNodeId (source l) ∈ nodeIds /\ getNodeId (target l) ∈ nodeIds.
Proof.
  unfold knownEndpoints. rewrite andb_true_iff, !bool_decide_eq_true. done.
Qed.

Lemma sum_list_zero_Forall {A} (m : A -> nat) (l : list A) :
  sum_list (map m l) = 0 <-> Forall (fun x => m x = 0) l.
Proof.
  induction l as [|x l IH]; cbn; [split; [constructor | done]|].
  rewrite Forall_cons, <- IH. lia.
Qed.

Lemma validateGraph_issue_length data :
  length (issues (validateGraph data))
    = sum_list (map (missingEndpoints (nodeIdSet (nodes data))) (links data)).
Proof.
  unfold validateGraph. cbn [issues].
  apply concat_imap_length. intros i l. apply validateLink_length.
Qed.

Lemma elem_of_nodeIdSet x ns : x ∈ nodeIdSet ns <-> x ∈ map id ns.
Proof. unfold nodeIdSet. apply elem_of_list_to_set. Qed.

Lemma validateGraph_valid_Forall (data : GraphData) :
  isValid (validateGraph data) = true <->
  Forall (fun l => getNodeId (source l) ∈ map id (nodes data) /\
                   getNodeId (target l) ∈ map id (nodes data)) (links data).
Proof.
  unfold validateGraph at 1. cbn [isValid]. fold (issues (validateGraph data)).
  rewrite Nat.eqb_eq.
  change (concat (imap (validateLink (nodeIdSet (nodes data))) (links data)))
    with (issues (validateGraph data)).
  rewrite validateGraph_issue_length, sum_list_zero_Forall.
  apply Forall_proper; [|done]. intros l.
  rewrite <- knownEndpoints_missing, knownEndpoints_spec, !elem_of_nodeIdSet. done.
Qed.

(** The report is valid exactly when no link has an endpoint outside
    the node ids; every link contributes one issue per missing
    endpoint, so there are at most two issues per link. *)
Theorem validateGraph_valid_iff (data : GraphData) :
  (isValid (validateGraph data) = true <->
   Forall (fun l => getNodeId (source l) ∈ map id (nodes data) /\
                    getNodeId (target l) ∈ map id (nodes data)) (links data)) /\
  length (issues (validateGraph data))
    = sum_list (map (missingEndpoints (nodeIdSet (nodes data))) (links data)) /\
  length (issues (validateGraph data)) <= 2 * length (links data).
Proof.
  split_and!.
  - apply validateGraph_valid_Forall.
  - apply validateGraph_issue_length.
  - rewrite validateGraph_issue_length.
    induction (links data) as [|l ls IH]; cbn; [lia|].
    assert (missingEndpoints (nodeIdSet (nodes data)) l <= 2).
    { unfold missingEndpoints. repeat case_bool_decide; lia. }
    lia.
Qed.

Lemma validateGraph_no_issues data :
  isValid (validateGraph data) = true -> issues (validateGraph data) = [].
Proof.
  unfold validateGraph. cbn. rewrite Nat.eqb_eq. apply nil_length_inv.
Qed.

Lemma validateGraph_clean data :
  isValid (validateGraph data) = true ->
  validateGraph data = {| isValid := true; issues := [] |}.
Proof.
  intros Hv. pose proof (validateGraph_no_issues _ Hv) as Hi.
  destruct (validateGraph data) as [v i]. cbn in *. by subst.
Qed.

Lemma normalized_links_known (g : GraphData) :
  isValid (validateGraph (normalizeGraphPayload g)) = true.
Proof.
  apply validateGraph_valid_Forall.
  rewrite normalize_links_eq, normalize_nodes_eq, map_id_normalizeNode.
  apply Forall_forall. intros l Hl.
  apply list_elem_of_In, in_map_iff in Hl as (l0 & <- & Hl0).
  apply filter_In in Hl0 as [_ Hk]. apply knownEndpoints_spec in Hk.
  rewrite !elem_of_nodeIdSet in Hk. exact Hk.
Qed.

(** A normalized graph always validates: the validator finds no issue
    in the output of the normalizer. *)
Theorem validateGraph_normalized (g : GraphData) :
  validateGraph (normalizeGraphPayload g) = {| isValid := true; issues := [] |}.
Proof. apply validateGraph_clean, normalized_links_known. Qed.

Lemma filter_all {A} (f : A -> bool) (l : list A) :
  Forall (fun x => f x = true) l -> List.filter f l = l.
Proof.
  induction 1 as [|x l Hx _ IH]; cbn; [done|]. by rewrite Hx, IH.
Qed.

Lemma filter_none_iff {A} (f : A -> bool) (l : list A) :
  List.filter (fun x => negb (f x)) l = [] <-> Forall (fun x => f x = true) l.
Proof.
  induction l as [|x l IH]; cbn; [split; [constructor | done]|].
  rewrite Forall_cons. destruct (f x); cbn; [rewrite IH; tauto|].
  split; [done | intros [? _]; done].
Qed.

(** The validator and the normalizer agree: a graph validates exactly
    when normalization drops none of its links, and then the
    normalized links are the raw links, in order, with resolved
    endpoints. *)
Theorem validateGraph_agrees_with_normalizer (g : GraphData) :
  (isValid (validateGraph g) = true <-> invalidLinks (normalizeGraphPayload_full g) = []) /\
  (isValid (validateGraph g) = true ->
   links (normalizeGraphPayload g) = map resolvedLink (links g)).
Proof.
  assert (Hiff : isValid (validateGraph g) = true <->
                 Forall (fun l => knownEndpoints (nodeIdSet (nodes g)) l = true) (links g)).
  { rewrite (validateGraph_valid_Forall g).
    apply Forall_proper; [|done]. intros l.
    rewrite knownEndpoints_spec, !elem_of_nodeIdSet. done. }
  split.
  - rewrite Hiff, normalize_invalid_eq, <- filter_none_iff.
    split; [by intros -> |].
    intros H. destruct (List.filter _ _); [done | discriminate].
  - intros Hv. rewrite normalize_links_eq, filter_all; [done | by apply Hiff].
Qed.

Lemma validateGraph_agrees_with_normalizer_witness :
  links (normalizeGraphPayload
           {| nodes := [sampleNode "A"; sampleNode "B"];
              links := [mkLink (RefNode (sampleNode "A")) (RefId "B") (Some "uses")] |})
  = [sampleLink "A" "B" "uses"].
Proof.
  apply (validateGraph_agrees_with_normalizer
           {| nodes := [sampleNode "A"; sampleNode "B"];
              links := [mkLink (RefNode (sampleNode "A")) (RefId "B") (Some "uses")] |}).
  reflexivity.
Defined.

(** ** Export snapshot *)

Lemma snapshotNode_id n : snapshotNode n = n.
Proof. by destruct n. Qed.

Lemma map_snapshotNode ns : map snapshotNode ns = ns.
Proof. induction ns as [|n ns IH]; cbn; [done | by rewrite snapshotNode_id, IH]. Qed.

Lemma snapshotLink_resolved l : snapshotLink l = resolvedLink l.
Proof. reflexivity. Qed.

Lemma filter_known_snapshot nodeIds ls :
  map resolvedLink (List.filter (knownEndpoints nodeIds) (map snapshotLink ls))
  = map resolvedLink (List.filter (knownEndpoints nodeIds) ls).
Proof.
  induction ls as [|l ls IH]; cbn [map List.filter]; [done|].
  change (knownEndpoints nodeIds (snapshotLink l)) with (knownEndpoints nodeIds l).
  destruct (knownEndpoints nodeIds l); cbn [map]; by rewrite IH.
Qed.

(** Saving and loading: normalizing an exported snapshot gives the same
    graph as normalizing the graph that was exported. *)
Theorem normalize_export_snapshot (g : GraphData) :
  normalizeGraphPayload (createGraphExportSnapshot g) = normalizeGraphPayload g.
Proof.
  apply graph_eq.
  - rewrite !normalize_nodes_eq. cbn. by rewrite map_snapshotNode.
  - rewrite !normalize_links_eq. cbn [createGraphExportSnapshot nodes links].
    rewrite map_snapshotNode. apply filter_known_snapshot.
Qed.

(** A normalized graph is its own export snapshot, and exporting
    twice is the same as exporting once. *)
Theorem export_snapshot_fixed_points (g : GraphData) :
  createGraphExportSnapshot (normalizeGraphPayload g) = normalizeGraphPayload g /\
  createGraphExportSnapshot (createGraphExportSnapshot g) = createGraphExportSnapshot g.
Proof.
  split; apply graph_eq; cbn [createGraphExportSnapshot nodes links].
  - apply map_snapshotNode.
  - rewrite normalize_links_eq, map_map.
    apply map_ext. intros l. reflexivity.
  - by rewrite !map_snapshotNode.
  - rewrite map_map. apply map_ext. intros l. reflexivity.
Qed.

Lemma initNodes_ext fuel ns ns' : forall p,
  map id ns = map id ns' -> initNodes fuel p ns = initNodes fuel p ns'.
Proof.
  revert ns'. induction ns as [|n ns IH]; intros [|n' ns'] p H; try done.
  cbn in H. injection H as Hn Hns. cbn [initNodes]. rewrite Hn.
  destruct (find fuel p (id n')) as [[r p1]|]; cbn; [|done]. by apply IH.
Qed.

Lemma unionLinks_ext fuel ls ls' : forall p,
  map endpoints ls = map endpoints ls' -> unionLinks fuel p ls = unionLinks fuel p ls'.
Proof.
  revert ls'. induction ls as [|l ls IH]; intros [|l' ls'] p H; try done.
  cbn in H. injection H as Hs Ht Hls. cbn [unionLinks]. rewrite Hs, Ht.
  destruct (union fuel p _ _) as [p1|]; cbn; [|done]. by apply IH.
Qed.

Lemma groupNodes_ext fuel ns ns' : forall p cm,
  map id ns = map id ns' -> groupNodes fuel p cm ns = groupNodes fuel p cm ns'.
Proof.
  revert ns'. induction ns as [|n ns IH]; intros [|n' ns'] p cm H; try done.
  cbn in H. injection H as Hn Hns. cbn [groupNodes]. rewrite Hn.
  destruct (find fuel p (id n')) as [[r p1]|]; cbn; [|done]. by apply IH.
Qed.

(** The connectivity analyzer reads nothing but the node ids and the
    resolved endpoints of the links. *)
Lemma findDisconnectedComponents_ext g g' :
  map id (nodes g) = map id (nodes g') ->
  map endpoints (links g) = map endpoints (links g') ->
  findDisconnectedComponents g = findDisconnectedComponents g'.
Proof.
  intros Hn Hl. unfold findDisconnectedComponents, findDisconnectedComponents_fuel.
  assert (Hlen : length (links g) = length (links g')).
  { by rewrite <- (length_map endpoints), Hl, length_map. }
  rewrite Hlen, (initNodes_ext _ _ _ _ Hn).
  destruct (initNodes _ _ _) as [p0|]; cbn; [|done].
  rewrite (unionLinks_ext _ _ _ _ Hl).
  destruct (unionLinks _ _ _) as [p1|]; cbn; [|done].
  by rewrite (groupNodes_ext _ _ _ _ _ Hn).
Qed.

Lemma imap_ext_endpoints {B} (f : nat -> GraphLink -> B) ls : forall ls',
  (forall i x y, endpoints x = endpoints y -> f i x = f i y) ->
  map endpoints ls = map endpoints ls' -> imap f ls = imap f ls'.
Proof.
  revert f. induction ls as [|x ls IH]; intros f [|y ls'] Hf H; try done.
  cbn in H. injection H as Hs Ht Hls. cbn [imap]. f_equal.
  - apply Hf. unfold endpoints. by rewrite Hs, Ht.
  - apply IH; [|done]. intros i a b Hab. apply Hf, Hab.
Qed.

Lemma imap_validateLink_ext nodeIds ls ls' :
  map endpoints ls = map endpoints ls' ->
  imap (validateLink nodeIds) ls = imap (validateLink nodeIds) ls'.
Proof.
  apply imap_ext_endpoints. intros i x y Hxy. unfold validateLink.
  injection Hxy as -> ->. done.
Qed.

(** Export changes nothing that the engine looks at: the snapshot has
    as many links as the graph (dangling ones included), every link
    keeps its highlight key, and the validation report and the
    connected components of the snapshot are those of the graph. *)
Theorem export_snapshot_preserves_analysis (g : GraphData) :
  length (links (createGraphExportSnapshot g)) = length (links g) /\
  map buildLinkKey (links (createGraphExportSnapshot g)) = map buildLinkKey (links g) /\
  validateGraph (createGraphExportSnapshot g) = validateGraph g /\
  findDisconnectedComponents (createGraphExportSnapshot g) = findDisconnectedComponents g.
Proof.
  assert (Hn : map id (nodes (createGraphExportSnapshot g)) = map id (nodes g)).
  { cbn. by rewrite map_snapshotNode. }
  assert (Hl : map endpoints (links (createGraphExportSnapshot g)) = map endpoints (links g)).
  { cbn. rewrite map_map. apply map_ext. intros l. reflexivity. }
  split_and!.
  - cbn. apply length_map.
  - cbn. rewrite map_map. apply map_ext. intros l. reflexivity.
  - unfold validateGraph, nodeIdSet. rewrite Hn.
    by rewrite (imap_validateLink_ext _ _ _ Hl).
  - by apply findDisconnectedComponents_ext.
Qed.

(** ** Connected components: structure of the result *)

Lemma pushCluster_concat r x cm :
  concat (map snd (pushCluster r x cm)) ≡ₚ concat (map snd cm) ++ [x].
Proof.
  induction cm as [|[k ids] rest IH]; cbn [pushCluster]; [done|].
  destruct (decide (k = r)); cbn [map snd concat].
  - rewrite <- !app_assoc. apply Permutation_app_head, Permutation_app_comm.
  - rewrite IH. by rewrite app_assoc.
Qed.

Lemma groupPairs_concat ps : forall cm,
  concat (map snd (groupPairs ps cm)) ≡ₚ concat (map snd cm) ++ map snd ps.
Proof.
  induction ps as [|[r x] ps IH]; intros cm; cbn [groupPairs fold_left map snd].
  - by rewrite app_nil_r.
  - fold (groupPairs ps (pushCluster r x cm)).
    rewrite IH, pushCluster_concat. cbn [fst snd]. by rewrite <- app_assoc.
Qed.

Lemma groupPairs_components ps c :
  c ∈ map snd (groupPairs ps []) ->
  exists k, k ∈ map fst ps /\
            c = map snd (List.filter (fun pr => bool_decide (fst pr = k)) ps).
Proof.
  intros Hc. apply list_elem_of_fmap in Hc as ([k c'] & -> & Hin).
  apply list_elem_of_lookup in Hin as [i Hi].
  assert (Hnd : NoDup (map fst (groupPairs ps []))) by (apply groupPairs_NoDup; constructor).
  exists k. split.
  - assert (Hk : k ∈ map fst (groupPairs ps [])).
    { apply list_elem_of_fmap. exists (k, c'). split; [done|].
      by eapply list_elem_of_lookup_2. }
    apply groupPairs_keys in Hk as [Hk|Hk]; [by apply elem_of_nil in Hk | done].
  - cbn [snd]. rewrite <- (members_lookup _ _ _ _ Hnd Hi), groupPairs_members. done.
Qed.

Lemma filter_sublist {A} (f : A -> bool) (l : list A) : sublist (List.filter f l) l.
Proof.
  induction l as [|x l IH]; cbn; [constructor|].
  destruct (f x); by constructor.
Qed.

Lemma length_le_concat {A} (ls : list (list A)) :
  Forall (fun c => c <> []) ls -> length ls <= length (concat ls).
Proof.
  induction 1 as [|c ls Hc _ IH]; cbn; [lia|].
  rewrite length_app. destruct c; [done|]. cbn. lia.
Qed.

(** Every node is placed in exactly one component: the components,
    concatenated, are a rearrangement of the list of node ids (an id
    that occurs twice in the node list occurs twice in its
    component).  No component is empty, each lists its members in
    input order, and there are at most as many components as nodes,
    none exactly when there are no nodes. *)
Theorem components_place_every_node_once (data : GraphData) :
  exists comps,
    findDisconnectedComponents data = Some comps /\
    concat comps ≡ₚ map id (nodes data) /\
    Forall (fun c => c <> [] /\ sublist c (map id (nodes data))) comps /\
    length comps <= length (nodes data) /\
    (comps = [] <-> nodes data = []).
Proof.
  destruct (findDisconnectedComponents_struct data)
    as (p1 & D1 & ps & _ & _ & Hsnd & _ & Hres).
  destruct (findDisconnectedComponents_spec data) as (comps & Hres' & Hne & _).
  rewrite Hres in Hres'. injection Hres' as <-.
  set (comps := map snd (groupPairs ps [])) in *.
  assert (Hperm : concat comps ≡ₚ map id (nodes data)).
  { unfold comps. rewrite groupPairs_concat. cbn. by rewrite Hsnd. }
  assert (Hlen : length comps <= length (nodes data)).
  { pose proof (length_le_concat _ Hne) as H.
    rewrite Hperm, length_map in H. exact H. }
  exists comps. split_and!; auto.
  - apply Forall_forall. intros c Hc. split.
    + rewrite Forall_forall in Hne. by apply Hne.
    + destruct (groupPairs_components _ _ Hc) as (k & _ & ->).
      rewrite <- Hsnd. apply (fmap_sublist snd), filter_sublist.
  - split.
    + intros Hc. rewrite Hc in Hperm. cbn in Hperm. symmetry in Hperm.
      apply Permutation_nil_r in Hperm. by apply map_eq_nil in Hperm.
    + intros Hn. rewrite Hn in Hlen. cbn in Hlen.
      destruct comps as [|c cs]; [done | cbn in Hlen; lia].
Qed.

(** Two nodes are in the same component exactly when a chain of links,
    followed in either direction, joins them (the chain may pass
    through identifiers that are not nodes). *)
Theorem components_are_connectivity_classes (data : GraphData) (x y : string) :
  x ∈ map id (nodes data) -> y ∈ map id (nodes data) ->
  exists comps,
    findDisconnectedComponents data = Some comps /\
    ((exists c, c ∈ comps /\ x ∈ c /\ y ∈ c) <-> conn (map endpoints (links data)) x y).
Proof.
  intros Hx Hy.
  destruct (findDisconnectedComponents_spec data) as (comps & Hres & _ & _ & Hcover & Hexact).
  exists comps. split; [done|]. split.
  - intros (c & Hc & Hxc & Hyc). by apply (Hexact c x y Hc Hxc).
  - intros Hconn. apply Hcover in Hx as (c & Hc & Hxc).
    exists c. split_and!; auto. by apply (Hexact c x y Hc Hxc).
Qed.

Lemma components_are_connectivity_classes_witness :
  exists comps,
    findDisconnectedComponents
      {| nodes := [sampleNode "A"; sampleNode "B"; sampleNode "C"];
         links := [sampleLink "B" "A" "uses"] |} = Some comps /\
    ((exists c, c ∈ comps /\ "A" ∈ c /\ "B" ∈ c) <->
     conn [("B", "A")] "A" "B").
Proof.
  apply (components_are_connectivity_classes
           {| nodes := [sampleNode "A"; sampleNode "B"; sampleNode "C"];
              links := [sampleLink "B" "A" "uses"] |} "A" "B"); cbn; set_solver.
Defined.

(** *** The result depends on connectivity only *)

Lemma pushCluster_related (rho : string -> string -> Prop) r r' x cm cm' :
  (forall k k1 k2, rho k k1 -> rho k k2 -> k1 = k2) ->
  (forall k1 k2 k', rho k1 k' -> rho k2 k' -> k1 = k2) ->
  rho r r' ->
  Forall2 (fun e e' => snd e = snd e' /\ rho (fst e) (fst e')) cm cm' ->
  Forall2 (fun e e' => snd e = snd e' /\ rho (fst e) (fst e'))
          (pushCluster r x cm) (pushCluster r' x cm').
Proof.
  intros Hfun Hinj Hr. induction 1 as [|[k c] [k' c'] cm cm' [Hc Hk] Hcm IH];
    cbn [pushCluster].
  - constructor; [by split | constructor].
  - cbn in Hc, Hk. subst c'.
    destruct (decide (k = r)) as [->|Hne], (decide (k' = r')) as [->|Hne'].
    + constructor; [by split | done].
    + exfalso. apply Hne'. by eapply Hfun.
    + exfalso. apply Hne. by eapply Hinj.
    + constructor; [by split | exact IH].
Qed.

Lemma groupPairs_related (rho : string -> string -> Prop) ps ps' :
  (forall k k1 k2, rho k k1 -> rho k k2 -> k1 = k2) ->
  (forall k1 k2 k', rho k1 k' -> rho k2 k' -> k1 = k2) ->
  Forall2 (fun pr pr' => snd pr = snd pr' /\ rho (fst pr) (fst pr')) ps ps' ->
  forall cm cm',
    Forall2 (fun e e' => snd e = snd e' /\ rho (fst e) (fst e')) cm cm' ->
    map snd (groupPairs ps cm) = map snd (groupPairs ps' cm').
Proof.
  intros Hfun Hinj. induction 1 as [|[r x] [r' x'] ps ps' [Hx Hr] _ IH]; intros cm cm' Hcm.
  - cbn. induction Hcm as [|e e' cm cm' [He _] _ IHcm]; cbn; [done | by rewrite He, IHcm].
  - cbn in Hx, Hr. subst x'. cbn [groupPairs fold_left fst snd].
    apply IH. by apply pushCluster_related.
Qed.

Lemma components_depend_on_connectivity g g' :
  map id (nodes g) = map id (nodes g') ->
  (forall x y, x ∈ map id (nodes g) -> y ∈ map id (nodes g) ->
     (conn (map endpoints (links g)) x y <-> conn (map endpoints (links g')) x y)) ->
  findDisconnectedComponents g = findDisconnectedComponents g'.
Proof.
  intros Hn Hconn.
  destruct (findDisconnectedComponents_struct g)
    as (p & D & ps & (HD & _ & HS) & Hids & Hsnd & Hreach & ->).
  destruct (findDisconnectedComponents_struct g')
    as (p' & D' & ps' & (HD' & _ & HS') & Hids' & Hsnd' & Hreach' & ->).
  rewrite <- Hn in Hids', Hsnd'.
  set (ids := map id (nodes g)) in *.
  set (rho := fun k k' => exists x, x ∈ ids /\ reach p x k /\ reach p' x k').
  f_equal. apply (groupPairs_related rho).
  - intros k k1 k2 (x & Hx & Hxk & Hxk1) (y & Hy & Hyk & Hyk2).
    assert (Hs : same p' x y).
    { apply HS'. split_and!; auto. apply Hconn; auto. apply HS. by exists k. }
    destruct Hs as (r & Hxr & Hyr).
    by rewrite (reach_fun _ _ _ _ Hxk1 Hxr), (reach_fun _ _ _ _ Hyk2 Hyr).
  - intros k1 k2 k' (x & Hx & Hxk1 & Hxk') (y & Hy & Hyk2 & Hyk').
    assert (Hs : same p x y).
    { apply HS. split_and!; auto. apply Hconn; auto. apply HS'. by exists k'. }
    destruct Hs as (r & Hxr & Hyr).
    by rewrite (reach_fun _ _ _ _ Hxk1 Hxr), (reach_fun _ _ _ _ Hyk2 Hyr).
  - assert (Hin : forall pr, pr ∈ ps -> snd pr ∈ ids).
    { intros pr Hpr. rewrite <- Hsnd. apply list_elem_of_fmap. by exists pr. }
    rewrite Forall_forall in Hreach, Hreach'.
    assert (Heq : map snd ps = map snd ps') by congruence.
    clear Hsnd Hsnd'. revert ps' Heq Hreach'.
    induction ps as [|[k x] ps IH]; intros [|[k' x'] ps'] Heq Hreach'; try done.
    cbn in Heq. injection Heq as Hx Heq. subst x'.
    constructor.
    + split; [done|]. exists x. split_and!.
      * apply (Hin (k, x)). apply list_elem_of_here.
      * apply (Hreach (k, x)). apply list_elem_of_here.
      * apply (Hreach' (k', x)). apply list_elem_of_here.
    + apply IH.
      * intros pr Hpr. apply Hreach. by apply list_elem_of_further.
      * intros pr Hpr. apply Hin. by apply list_elem_of_further.
      * done.
      * intros pr Hpr. apply Hreach'. by apply list_elem_of_further.
  - constructor.
Qed.

Lemma elem_of_endpoints_reverse l a b :
  (a, b) ∈ map endpoints (map reverseLink l) <-> (b, a) ∈ map endpoints l.
Proof.
  rewrite map_map, !list_elem_of_fmap. split.
  - intros (l0 & Heq & Hl0). exists l0. split; [|done].
    unfold endpoints, reverseLink in *. cbn in Heq. congruence.
  - intros (l0 & Heq & Hl0). exists l0. split; [|done].
    unfold endpoints, reverseLink in *. cbn. congruence.
Qed.

Lemma edge_reverse l x y :
  edge (map endpoints (map reverseLink l)) x y <-> edge (map endpoints l) x y.
Proof. unfold edge. rewrite !elem_of_endpoints_reverse. tauto. Qed.

Lemma conn_edge_iff E E' :
  (forall x y, edge E x y <-> edge E' x y) -> forall x y, conn E x y <-> conn E' x y.
Proof.
  intros H x y. split; induction 1 as [|a b c Hab _ IH]; try apply rtc_refl;
    (eapply rtc_l; [apply H, Hab | exact IH]).
Qed.

(** The list of components is a function of the node ids and of which
    nodes are connected: two graphs with the same node ids whose links
    connect the same pairs of nodes get the same components, in the
    same order.  In particular neither the direction of the links, nor
    their order, nor their labels matter. *)
Theorem components_depend_only_on_connectivity (g g' : GraphData) :
  (map id (nodes g) = map id (nodes g') ->
   (forall x y, x ∈ map id (nodes g) -> y ∈ map id (nodes g) ->
      (conn (map endpoints (links g)) x y <-> conn (map endpoints (links g')) x y)) ->
   findDisconnectedComponents g = findDisconnectedComponents g') /\
  findDisconnectedComponents {| nodes := nodes g; links := map reverseLink (links g) |}
    = findDisconnectedComponents g /\
  (links g ≡ₚ links g' -> nodes g = nodes g' ->
   findDisconnectedComponents g = findDisconnectedComponents g').
Proof.
  split_and!.
  - apply components_depend_on_connectivity.
  - apply components_depend_on_connectivity; [done|].
    intros x y _ _. cbn [links]. apply conn_edge_iff. intros a b.
    apply edge_reverse.
  - intros Hperm Hn. apply components_depend_on_connectivity; [by rewrite Hn|].
    intros x y _ _. apply conn_edge_iff. intros a b. unfold edge.
    by rewrite Hperm.
Qed.

Lemma components_depend_only_on_connectivity_witness :
  findDisconnectedComponents
    {| nodes := [sampleNode "A"; sampleNode "B"; sampleNode "C"];
       links := [sampleLink "A" "B" "uses"; sampleLink "B" "C" "cites"] |}
  = findDisconnectedComponents
    {| nodes := [sampleNode "A"; sampleNode "B"; sampleNode "C"];
       links := [sampleLink "B" "C" "cites"; sampleLink "A" "B" "uses"] |}.
Proof.
  apply (components_depend_only_on_connectivity
           {| nodes := [sampleNode "A"; sampleNode "B"; sampleNode "C"];
              links := [sampleLink "A" "B" "uses"; sampleLink "B" "C" "cites"] |}
           {| nodes := [sampleNode "A"; sampleNode "B"; sampleNode "C"];
              links := [sampleLink "B" "C" "cites"; sampleLink "A" "B" "uses"] |}).
  - cbn. apply perm_swap.
  - reflexivity.
Defined.

(** *** More links never split a component *)

Lemma filter_ne_length (h : string) (hs : list string) :
  h ∈ hs -> length (List.filter (fun z => negb (bool_decide (z = h))) hs) < length hs.
Proof.
  induction hs as [|z hs IH]; intros Hin; [by apply elem_of_nil in Hin|].
  cbn. destruct (decide (z = h)) as [->|Hne].
  - rewrite bool_decide_eq_true_2 by done. cbn.
    pose proof (filter_length_le (fun z => negb (bool_decide (z = h))) hs) as Hle.
    cbn in Hle. lia.
  - rewrite bool_decide_eq_false_2 by done. cbn.
    apply elem_of_cons in Hin as [?|Hin]; [congruence|]. specialize (IH Hin). lia.
Qed.

Lemma disjoint_cover_length (cs : list (list string)) : forall hs : list string,
  (forall i j c1 c2 x, cs !! i = Some c1 -> cs !! j = Some c2 -> x ∈ c1 -> x ∈ c2 -> i = j) ->
  (forall c, c ∈ cs -> exists h, h ∈ hs /\ h ∈ c) ->
  length cs <= length hs.
Proof.
  induction cs as [|c cs IH]; intros hs Hdisj Hcover; cbn; [lia|].
  destruct (Hcover c (list_elem_of_here _ _)) as (h & Hh & Hhc).
  pose proof (filter_ne_length h hs Hh) as Hlt.
  specialize (IH (List.filter (fun z => negb (bool_decide (z = h))) hs)).
  enough (length cs <= length (List.filter (fun z => negb (bool_decide (z = h))) hs)) by lia.
  apply IH.
  - intros i j c1 c2 x Hi Hj H1 H2.
    specialize (Hdisj (S i) (S j) c1 c2 x Hi Hj H1 H2). lia.
  - intros c' Hc'. destruct (Hcover c' (list_elem_of_further _ _ _ Hc')) as (h' & Hh' & Hhc').
    exists h'. split; [|done].
    apply list_elem_of_In, filter_In. split; [by apply list_elem_of_In|].
    apply negb_true_iff, bool_decide_eq_false. intros ->.
    apply list_elem_of_lookup in Hc' as [j Hj].
    specialize (Hdisj 0 (S j) c c' h eq_refl Hj Hhc Hhc'). lia.
Qed.

Lemma hd_elem_of (c : list string) : c <> [] -> hd "" c ∈ c.
Proof. destruct c; [done | intros _; apply list_elem_of_here]. Qed.

Lemma components_count_mono g g' :
  map id (nodes g) = map id (nodes g') ->
  (forall x y, conn (map endpoints (links g)) x y -> conn (map endpoints (links g')) x y) ->
  exists comps comps',
    findDisconnectedComponents g = Some comps /\
    findDisconnectedComponents g' = Some comps' /\
    length comps' <= length comps /\
    Forall (fun c => exists c', c' ∈ comps' /\ forall x, x ∈ c -> x ∈ c') comps.
Proof.
  intros Hn Hmono.
  destruct (findDisconnectedComponents_spec g)
    as (comps & Hres & Hne & Hdisj & Hcover & Hexact).
  destruct (findDisconnectedComponents_spec g')
    as (comps' & Hres' & Hne' & Hdisj' & Hcover' & Hexact').
  rewrite <- Hn in Hcover', Hexact'.
  rewrite Forall_forall in Hne, Hne'.
  assert (Hinto : forall c, c ∈ comps ->
            exists c', c' ∈ comps' /\ forall x, x ∈ c -> x ∈ c').
  { intros c Hc. pose proof (hd_elem_of c (Hne _ Hc)) as Hh.
    assert (Hhid : hd "" c ∈ map id (nodes g)) by (apply Hcover; eauto).
    destruct (proj1 (Hcover' _) Hhid) as (c' & Hc' & Hhc').
    exists c'. split; [done|]. intros x Hx.
    apply (Hexact' c' (hd "" c) x Hc' Hhc'). split.
    - apply Hcover. eauto.
    - apply Hmono. by apply (Hexact c (hd "" c) x Hc Hh). }
  exists comps, comps'. split_and!; auto.
  - replace (length comps) with (length (map (hd "") comps)) by apply length_map.
    apply disjoint_cover_length; [exact Hdisj'|].
    intros c' Hc'. pose proof (hd_elem_of c' (Hne' _ Hc')) as Hy.
    assert (Hyid : hd "" c' ∈ map id (nodes g)) by (apply Hcover'; eauto).
    destruct (proj1 (Hcover _) Hyid) as (c & Hc & Hyc).
    destruct (Hinto c Hc) as (c'' & Hc'' & Hsub).
    assert (c'' = c') as ->.
    { apply list_elem_of_lookup in Hc'' as [i Hi]. apply list_elem_of_lookup in Hc' as [j Hj].
      pose proof (Hdisj' i j c'' c' _ Hi Hj (Hsub _ Hyc) Hy) as ->. congruence. }
    exists (hd "" c). split.
    + apply list_elem_of_fmap. by exists c.
    + apply Hsub. apply hd_elem_of. by apply Hne.
  - by apply Forall_forall.
Qed.

(** Adding links to a graph never splits a component: every component
    of the graph lies inside one component of the extended graph, so
    the extended graph has at most as many components. *)
Theorem adding_links_never_splits_components (g : GraphData) (extra : list GraphLink) :
  exists comps comps',
    findDisconnectedComponents g = Some comps /\
    findDisconnectedComponents {| nodes := nodes g; links := links g ++ extra |} = Some comps' /\
    length comps' <= length comps /\
    Forall (fun c => exists c', c' ∈ comps' /\ forall x, x ∈ c -> x ∈ c') comps.
Proof.
  apply components_count_mono; [done|].
  intros x y. cbn [links]. rewrite map_app. apply conn_app_l.
Qed.

(** ** Unification: further properties *)

Lemma components_connected_le_one data comps :
  findDisconnectedComponents data = Some comps ->
  (forall x y, x ∈ map id (nodes data) -> y ∈ map id (nodes data) ->
     conn (map endpoints (links data)) x y) ->
  length comps <= 1.
Proof.
  intros Hres Hconn.
  destruct (findDisconnectedComponents_spec data)
    as (comps0 & Hres0 & Hne & Hdisj & Hcover & Hexact).
  rewrite Hres in Hres0. injection Hres0 as <-.
  destruct comps as [|c1 [|c2 cs]]; cbn; [lia | lia |]. exfalso.
  rewrite !Forall_cons in Hne. destruct Hne as (Hne1 & Hne2 & _).
  destruct c1 as [|x c1]; [done|]. destruct c2 as [|y c2]; [done|].
  assert (Hx : x ∈ map id (nodes data)).
  { apply Hcover. exists (x :: c1). split; [apply list_elem_of_here | apply list_elem_of_here]. }
  assert (Hy : y ∈ map id (nodes data)).
  { apply Hcover. exists (y :: c2). split; [|apply list_elem_of_here].
    apply list_elem_of_further, list_elem_of_here. }
  assert (Hyc1 : y ∈ x :: c1).
  { apply (Hexact (x :: c1) x y); [apply list_elem_of_here | apply list_elem_of_here |].
    split; [done | by apply Hconn]. }
  specialize (Hdisj 0 1 (x :: c1) (y :: c2) y eq_refl eq_refl Hyc1 (list_elem_of_here _ _)).
  lia.
Qed.

(** A graph whose nodes are all connected to one another (in
    particular an empty or a one-node graph) is returned as it is,
    with no link added, and the bridging capability has no influence
    on the result. *)
Theorem unifyGraph_connected_is_noop (data : GraphData) :
  (forall x y, x ∈ map id (nodes data) -> y ∈ map id (nodes data) ->
     conn (map endpoints (links data)) x y) ->
  exists comps,
    findDisconnectedComponents data = Some comps /\
    length comps <= 1 /\
    forall gemini,
      Revised.unifyGraph gemini data =
        Some (Returned {| unifiedData := data; addedLinksCount := 0;
                          clustersCount := length comps;
                          validation := validateGraph data |}) /\
      Stale.unifyGraph gemini data =
        Some (Returned {| unifiedData := data; addedLinksCount := 0;
                          clustersCount := length comps;
                          validation := validateGraph data |}).
Proof.
  intros Hconn. destruct (findDisconnectedComponents_total data) as [comps Hres].
  pose proof (components_connected_le_one data comps Hres Hconn) as Hle.
  exists comps. split_and!; auto. intros gemini.
  unfold Revised.unifyGraph, Stale.unifyGraph. rewrite Hres. cbn.
  apply Nat.leb_le in Hle. by rewrite Hle.
Qed.

Lemma unifyGraph_connected_is_noop_witness :
  exists comps,
    findDisconnectedComponents
      {| nodes := [sampleNode "A"; sampleNode "B"]; links := [sampleLink "B" "A" "uses"] |}
      = Some comps /\
    length comps <= 1.
Proof.
  destruct (unifyGraph_connected_is_noop
              {| nodes := [sampleNode "A"; sampleNode "B"];
                 links := [sampleLink "B" "A" "uses"] |}) as (comps & H1 & H2 & _).
  - intros x y Hx Hy. cbn in Hx, Hy.
    assert (Hab : conn [("B", "A")] "A" "B").
    { apply rtc_once. right. apply list_elem_of_here. }
    assert (Hx' : x = "A" \/ x = "B") by set_solver.
    assert (Hy' : y = "A" \/ y = "B") by set_solver.
    destruct Hx' as [-> | ->], Hy' as [-> | ->]; cbn;
      [apply rtc_refl | exact Hab | apply conn_sym, Hab | apply rtc_refl].
  - exists comps. by split.
Defined.

Lemma validateLink_known nodeIds i l :
  knownEndpoints nodeIds l = true -> validateLink nodeIds i l = [].
Proof.
  unfold knownEndpoints, validateLink. intros H. apply andb_prop in H as [-> ->]. done.
Qed.

Lemma concat_imap_nil {A B} (P : A -> Prop) (l : list A) : forall f : nat -> A -> list B,
  (forall i x, P x -> f i x = []) -> Forall P l -> concat (imap f l) = [].
Proof.
  induction l as [|x l IH]; intros f Hf Hl; cbn; [done|].
  apply Forall_cons in Hl as [Hx Hl].
  rewrite (Hf 0 x Hx), (IH (f ∘ S)); [done | | done]. intros i y Hy. by apply Hf.
Qed.

Lemma validateGraph_app_known ns ls added :
  Forall (fun l => knownEndpoints (nodeIdSet ns) l = true) added ->
  validateGraph {| nodes := ns; links := ls ++ added |}
  = validateGraph {| nodes := ns; links := ls |}.
Proof.
  intros Hk. unfold validateGraph. cbn [nodes links].
  rewrite imap_app, concat_app.
  rewrite (concat_imap_nil (fun l => knownEndpoints (nodeIdSet ns) l = true) added);
    [by rewrite app_nil_r | | done].
  intros i l Hl. by apply validateLink_known.
Qed.

Lemma revisedAccepted_all_known nodeIds keys candidates :
  Forall (fun l => knownEndpoints nodeIds l = true)
         (List.filter (revisedAccepted nodeIds keys) candidates).
Proof.
  eapply Forall_impl; [apply Forall_filter_In|].
  intros l [_ Hl]. unfold revisedAccepted in Hl. by apply andb_prop in Hl as [? _].
Qed.

(** In the guarded revision unification adds no validation issue: the
    validation report of the returned graph is the report of the
    input, which is also the report handed back in [validation]. *)
Theorem revised_unifyGraph_keeps_validation
    (gemini : string -> BridgeReply) (data : GraphData) :
  exists r,
    Revised.unifyGraph gemini data = Some (Returned r) /\
    validation r = validateGraph data /\
    validateGraph (unifiedData r) = validateGraph data.
Proof.
  destruct (revised_unifyGraph_shape gemini data)
    as (clusters & candidates & finalClusters & _ & _ & _ & Hu).
  cbn zeta in Hu. rewrite Hu. eexists. split; [reflexivity|].
  destruct (length clusters <=? 1); cbn; [done|]. split; [done|].
  rewrite validateGraph_app_known by apply revisedAccepted_all_known.
  by destruct data.
Qed.


Lemma graph_app_unchanged data added :
  {| nodes := nodes data; links := links data ++ added |} = data <-> added = [].
Proof.
  destruct data as [ns ls]. cbn. split.
  - intros H. injection H as H.
    rewrite <- (app_nil_r ls) in H at 2. by apply app_inv_head in H.
  - intros ->. by rewrite app_nil_r.
Qed.

(** In both revisions [addedLinksCount] is at most the number of
    candidates, and it is zero exactly when the returned graph is the
    input graph. *)
Theorem unifyGraph_unchanged_iff_nothing_added
    (gemini : string -> BridgeReply) (data : GraphData) :
  (exists r clusters candidates,
     Revised.unifyGraph gemini data = Some (Returned r) /\
     findDisconnectedComponents data = Some clusters /\
     findBridgesBetweenClusters gemini data clusters = Returned candidates /\
     addedLinksCount r <= length candidates /\
     (addedLinksCount r = 0 <-> unifiedData r = data)) /\
  (exists r clusters candidates,
     Stale.unifyGraph gemini data = Some (Returned r) /\
     findDisconnectedComponents data = Some clusters /\
     findBridgesBetweenClusters gemini data clusters = Returned candidates /\
     addedLinksCount r <= length candidates /\
     (addedLinksCount r = 0 <-> unifiedData r = data)).
Proof.
  split.
  - destruct (revised_unifyGraph_shape gemini data)
      as (clusters & candidates & finalClusters & Hc & Hb & _ & Hu).
    cbn zeta in Hu. rewrite Hu. eexists _, clusters, candidates.
    split; [reflexivity|]. split; [done|]. split; [done|].
    destruct (length clusters <=? 1); cbn; [split; [lia | done]|].
    split; [apply filter_length_le|].
    rewrite graph_app_unchanged. apply length_zero_iff_nil.
  - destruct (stale_unifyGraph_shape gemini data) as (clusters & candidates & Hc & Hb & Hu).
    cbn zeta in Hu. rewrite Hu. eexists _, clusters, candidates.
    split; [reflexivity|]. split; [done|]. split; [done|].
    destruct (length clusters <=? 1); cbn; [split; [lia | done]|].
    split; [apply filter_length_le|].
    rewrite graph_app_unchanged. apply length_zero_iff_nil.
Qed.

(** ** Refinement handler: further properties *)

Lemma revised_unifyGraph_result gemini data :
  exists r clusters finalClusters added,
    Revised.unifyGraph gemini data = Some (Returned r) /\
    findDisconnectedComponents data = Some clusters /\
    findDisconnectedComponents (unifiedData r) = Some finalClusters /\
    nodes (unifiedData r) = nodes data /\
    links (unifiedData r) = links data ++ added /\
    Forall (fun l => knownEndpoints (nodeIdSet (nodes data)) l = true) added /\
    addedLinksCount r = length added /\
    clustersCount r = length finalClusters /\
    length finalClusters <= length clusters.
Proof.
  destruct (revised_unifyGraph_shape gemini data)
    as (clusters & candidates & finalClusters & Hc & _ & Hf & Hu).
  cbn zeta in Hu, Hf. rewrite Hu. destruct (length clusters <=? 1).
  - eexists _, clusters, clusters, []. cbn.
    split_and!; rewrite ?app_nil_r; done.
  - eexists _, clusters, finalClusters, _. cbn.
    split; [reflexivity|]. split; [done|]. split; [exact Hf|]. split; [done|].
    split; [reflexivity|]. split; [apply revisedAccepted_all_known|].
    split; [done|]. split; [done|].
    match type of Hf with
    | findDisconnectedComponents ?g' = _ =>
        destruct (components_count_mono data g') as (c1 & c2 & H1 & H2 & Hle & _)
    end.
    + done.
    + intros x y. cbn [links]. rewrite map_app. apply conn_app_l.
    + rewrite Hc in H1. rewrite Hf in H2. injection H1 as <-. injection H2 as <-. exact Hle.
Qed.

Lemma handleRefineGraph_cases gemini timerFired app :
  exists r clusters finalClusters added,
    handleRefineGraph gemini timerFired app =
      Some (if negb (hasGraph app) || isRefining app then app
            else refinedApp app clusters r) /\
    findDisconnectedComponents (graphData app) = Some clusters /\
    findDisconnectedComponents (unifiedData r) = Some finalClusters /\
    nodes (unifiedData r) = nodes (graphData app) /\
    links (unifiedData r) = links (graphData app) ++ added /\
    Forall (fun l => knownEndpoints (nodeIdSet (nodes (graphData app))) l = true) added /\
    addedLinksCount r = length added /\
    clustersCount r = length finalClusters /\
    length finalClusters <= length clusters.
Proof.
  destruct (revised_unifyGraph_result gemini (graphData app))
    as (r & clusters & finalClusters & added & Hu & Hc & Hrest).
  exists r, clusters, finalClusters, added. split; [|by split].
  unfold handleRefineGraph. destruct (negb (hasGraph app) || isRefining app); [done|].
  rewrite Hc. cbn. rewrite Hu. cbn. by destruct timerFired.
Qed.


(** A refinement only ever appends links with known endpoints: the
    nodes are untouched, the old links stay in place in front of the
    new ones, and the validation report of the graph is the same
    before and after. *)
Theorem handleRefineGraph_only_appends_known_links
    (gemini : string -> BridgeReply) (timerFired : bool) (app : AppModel) :
  exists app' added,
    handleRefineGraph gemini timerFired app = Some app' /\
    nodes (graphData app') = nodes (graphData app) /\
    links (graphData app') = links (graphData app) ++ added /\
    Forall (fun l => getNodeId (source l) ∈ map id (nodes (graphData app)) /\
                     getNodeId (target l) ∈ map id (nodes (graphData app))) added /\
    validateGraph (graphData app') = validateGraph (graphData app).
Proof.
  destruct (handleRefineGraph_cases gemini timerFired app)
    as (r & clusters & finalClusters & added & H & _ & _ & Hn & Hl & Hk & Hcount & _).
  rewrite H.
  assert (Hk' : Forall (fun l => getNodeId (source l) ∈ map id (nodes (graphData app)) /\
                                 getNodeId (target l) ∈ map id (nodes (graphData app))) added).
  { eapply Forall_impl; [exact Hk|]. intros l Hl'.
    apply knownEndpoints_spec in Hl'. by rewrite !elem_of_nodeIdSet in Hl'. }
  destruct (negb (hasGraph app) || isRefining app).
  - exists app, []. split_and!; rewrite ?app_nil_r; done.
  - unfold refinedApp. cbv zeta. destruct (0 <? addedLinksCount r) eqn:Hadd.
    + eexists _, added. split; [reflexivity|]. cbn. split_and!; try done.
      destruct (unifiedData r) as [ns ls]. cbn in Hn, Hl. subst ns ls.
      rewrite validateGraph_app_known by done. by destruct (graphData app).
    + eexists _, []. split; [reflexivity|]. cbn.
      split_and!; rewrite ?app_nil_r; done.
Qed.

(** The node and link counters stay right: if they agree with the
    graph before a refinement, they agree with the graph after it. *)
Theorem handleRefineGraph_keeps_stats_consistent
    (gemini : string -> BridgeReply) (timerFired : bool) (app : AppModel) :
  statsConsistent app ->
  exists app',
    handleRefineGraph gemini timerFired app = Some app' /\
    statsConsistent app'.
Proof.
  intros Hs.
  destruct (handleRefineGraph_cases gemini timerFired app)
    as (r & clusters & finalClusters & added & H & _).
  rewrite H. eexists. split; [reflexivity|].
  destruct (negb (hasGraph app) || isRefining app); [done|].
  unfold statsConsistent, refinedApp in *. cbv zeta.
  destruct (0 <? addedLinksCount r); cbn; [|done].
  destruct (stats app); cbn; done.
Qed.

Lemma handleRefineGraph_keeps_stats_consistent_witness :
  exists app',
    handleRefineGraph (fun _ => Parsed [sampleLink "A" "B" "related_to"]) false
      {| graphData := {| nodes := [sampleNode "A"; sampleNode "B"]; links := [] |};
         stats := Some {| nodeCount := 2; linkCount := 0; processingTimeMs := 12 |};
         toast := None; isRefining := false;
         refinementModal := {| isOpen := false; state := PREPARING;
                               before := None; after := None |} |} = Some app' /\
    statsConsistent app'.
Proof.
  apply (handleRefineGraph_keeps_stats_consistent
           (fun _ => Parsed [sampleLink "A" "B" "related_to"]) false
           {| graphData := {| nodes := [sampleNode "A"; sampleNode "B"]; links := [] |};
              stats := Some {| nodeCount := 2; linkCount := 0; processingTimeMs := 12 |};
              toast := None; isRefining := false;
              refinementModal := {| isOpen := false; state := PREPARING;
                                    before := None; after := None |} |}).
  split; reflexivity.
Defined.

Lemma StatCard_grown label b k :
  StatCard label b (b + k) false =
    {| cardLabel := label; cardValue := b + k;
       cardBadge := if k =? 0 then None else Some (ArrowUp, k) |}.
Proof.
  unfold StatCard. f_equal.
  destruct (Nat.eqb_spec k 0) as [->|Hk].
  - rewrite Nat.add_0_r, Nat.eqb_refl. done.
  - destruct (Nat.eqb_spec (b + k) b); [lia|]. cbn [negb].
    destruct (Nat.ltb_spec b (b + k)); [|lia]. do 2 f_equal. lia.
Qed.

Lemma StatCard_shrunk label a k :
  StatCard label (a + k) a true =
    {| cardLabel := label; cardValue := a;
       cardBadge := if k =? 0 then None else Some (ArrowUp, k) |}.
Proof.
  unfold StatCard. f_equal.
  destruct (Nat.eqb_spec k 0) as [->|Hk].
  - rewrite Nat.add_0_r, Nat.eqb_refl. done.
  - destruct (Nat.eqb_spec a (a + k)); [lia|]. cbn [negb].
    destruct (Nat.ltb_spec a (a + k)); [|lia]. do 2 f_equal. lia.
Qed.

(** After a refinement that ran, the modal is open on its result page
    and none of its three cards shows a downward arrow: the node count
    is stable, the link count is stable or up by the number of added
    links, and the cluster count is stable or improved by the number
    of clusters that were merged away. *)
Theorem handleRefineGraph_cards_never_point_down
    (gemini : string -> BridgeReply) (timerFired : bool) (app : AppModel) :
  hasGraph app = true ->
  isRefining app = false ->
  exists app' added merged finalCount,
    handleRefineGraph gemini timerFired app = Some app' /\
    isRefining app' = false /\
    refinementStatCards (refinementModal app') =
      Some [ {| cardLabel := "Nodes"; cardValue := length (nodes (graphData app));
                cardBadge := None |};
             {| cardLabel := "Links"; cardValue := length (links (graphData app)) + added;
                cardBadge := if added =? 0 then None else Some (ArrowUp, added) |};
             {| cardLabel := "Clusters"; cardValue := finalCount;
                cardBadge := if merged =? 0 then None else Some (ArrowUp, merged) |} ].
Proof.
  intros Hg Hr.
  destruct (handleRefineGraph_cases gemini timerFired app)
    as (r & clusters & finalClusters & added & H & _ & _ & Hn & Hl & _ & Hcount & Hcl & Hle).
  rewrite H, Hg, Hr. cbn [negb orb].
  exists (refinedApp app clusters r), (length added),
         (length clusters - length finalClusters), (length finalClusters).
  split; [reflexivity|]. split; [reflexivity|].
  unfold refinementStatCards, refinedApp. cbn.
  rewrite Hn, Hl, Hcl, length_app. do 2 f_equal; [|f_equal; [|f_equal]].
  - pose proof (StatCard_grown "Nodes" (length (nodes (graphData app))) 0) as E.
    rewrite Nat.add_0_r in E. exact E.
  - apply StatCard_grown.
  - pose proof (StatCard_shrunk "Clusters" (length finalClusters)
                  (length clusters - length finalClusters)) as E.
    replace (length finalClusters + (length clusters - length finalClusters))
      with (length clusters) in E by lia.
    exact E.
Qed.

Lemma handleRefineGraph_cards_never_point_down_witness :
  exists app' added merged finalCount,
    handleRefineGraph (fun _ => Parsed [sampleLink "A" "B" "related_to"]) true
      {| graphData := {| nodes := [sampleNode "A"; sampleNode "B"]; links := [] |};
         stats := None; toast := None; isRefining := false;
         refinementModal := {| isOpen := false; state := PREPARING;
                               before := None; after := None |} |} = Some app' /\
    isRefining app' = false /\
    refinementStatCards (refinementModal app') =
      Some [ {| cardLabel := "Nodes"; cardValue := 2; cardBadge := None |};
             {| cardLabel := "Links"; cardValue := 0 + added;
                cardBadge := if added =? 0 then None else Some (ArrowUp, added) |};
             {| cardLabel := "Clusters"; cardValue := finalCount;
                cardBadge := if merged =? 0 then None else Some (ArrowUp, merged) |} ].
Proof.
  apply (handleRefineGraph_cards_never_point_down
           (fun _ => Parsed [sampleLink "A" "B" "related_to"]) true
           {| graphData := {| nodes := [sampleNode "A"; sampleNode "B"]; links := [] |};
              stats := None; toast := None; isRefining := false;
              refinementModal := {| isOpen := false; state := PREPARING;
                                    before := None; after := None |} |});
    reflexivity.
Defined.

(** ** Extraction and loading *)

Lemma importanceOrOne_truthy o : jsTruthy (importanceOrOne o) = true.
Proof.
  unfold importanceOrOne. destruct o as [v|]; [|reflexivity].
  destruct (jsTruthy v) eqn:Hv; [exact Hv | reflexivity].
Qed.

(** Every node of an extracted graph has a size that is a truthy
    number (never absent, zero or NaN), and normalization keeps it:
    an [importance] that is truthy is used as it is, any other is
    replaced by 1. *)
Theorem extracted_nodes_have_truthy_val
    (gemini : string -> ExtractReply) (markdownText : string) (g : GraphData) :
  extractGraphFromMarkdown gemini markdownText = Returned g ->
  Forall (fun n => exists v, val n = Some v /\ jsTruthy v = true) (nodes g) /\
  Forall (fun n => exists v, val n = Some v /\ jsTruthy v = true)
         (nodes (normalizeGraphPayload g)) /\
  exists rawData,
    gemini (extractionPrompt markdownText) = Extracted rawData /\
    map val (nodes (normalizeGraphPayload g))
      = map (fun n => Some (importanceOrOne (importance n))) (rawNodes rawData).
Proof.
  unfold extractGraphFromMarkdown.
  destruct (gemini (extractionPrompt markdownText)) as [| | |rawData]; try discriminate.
  intros [= <-]. rewrite normalize_nodes_eq. cbn [nodes]. split_and!.
  - apply Forall_forall. intros n Hn.
    apply list_elem_of_fmap in Hn as (raw & -> & _).
    eexists. split; [reflexivity | apply importanceOrOne_truthy].
  - apply Forall_forall. intros n Hn.
    apply list_elem_of_fmap in Hn as (n0 & -> & Hn0).
    apply list_elem_of_fmap in Hn0 as (raw & -> & _).
    eexists. split; [reflexivity | apply importanceOrOne_truthy].
  - exists rawData. split; [done|]. rewrite !map_map. reflexivity.
Qed.

Lemma extracted_nodes_have_truthy_val_witness :
  map val (nodes (normalizeGraphPayload
                    {| nodes := [sizedNode (mkRawNode (sampleNode "A") (Some 0%float))];
                       links := [] |}))
  = [Some 1%float].
Proof.
  destruct (extracted_nodes_have_truthy_val
              (fun _ => Extracted (mkRawGraph [mkRawNode (sampleNode "A") (Some 0%float)] []))
              "text"
              {| nodes := [sizedNode (mkRawNode (sampleNode "A") (Some 0%float))];
                 links := [] |} eq_refl) as (_ & _ & rawData & Hraw & Hval).
  injection Hraw as <-. exact Hval.
Defined.

(** A failed extraction (failed request, empty answer or malformed
    answer) loads nothing: the graph and the counters stay as they
    were, the shell goes to the [ERROR] state and shows the error
    toast. *)
Theorem handleFileLoad_failure_keeps_graph
    (gemini : string -> ExtractReply) (elapsedMs : nat) (content fileName : string)
    (s : ShellModel) :
  (forall rawData, gemini (extractionPrompt content) <> Extracted rawData) ->
  let s' := handleFileLoad gemini elapsedMs content fileName s in
  graphData (core s') = graphData (core s) /\
  stats (core s') = stats (core s) /\
  appState s' = ERROR /\
  toast (core s') = Some {| toastType := ToastError;
                            message := "Unable to extract graph from the provided file." |} /\
  currentFileName s' = currentFileName s /\
  selectedNode s' = selectedNode s.
Proof.
  intros Hfail. unfold handleFileLoad, extractGraphFromMarkdown.
  destruct (gemini (extractionPrompt content)) as [| | |rawData];
    [| | |by destruct (Hfail rawData)]; cbn; by split_and!.
Qed.

Lemma handleFileLoad_failure_keeps_graph_witness :
  let g := {| nodes := [sampleNode "A"]; links := [] |} in
  graphData (core (handleFileLoad (fun _ => ExtractNoText) 5 "text" "notes.md" (sampleShell g)))
  = g.
Proof.
  apply (handleFileLoad_failure_keeps_graph (fun _ => ExtractNoText) 5 "text" "notes.md"
           (sampleShell {| nodes := [sampleNode "A"]; links := [] |})).
  intros rawData. discriminate.
Defined.

(** A successful extraction installs the normalized graph: it has no
    dangling link (its validation report is clean), the counters
    agree with it, the file name is recorded, selection, query and
    highlights are cleared, and the shell shows the graph with a
    success toast. *)
Theorem handleFileLoad_success_installs_normalized_graph
    (gemini : string -> ExtractReply) (elapsedMs : nat) (content fileName : string)
    (s : ShellModel) (rawData : RawGraph) :
  gemini (extractionPrompt content) = Extracted rawData ->
  let s' := handleFileLoad gemini elapsedMs content fileName s in
  graphData (core s')
    = normalizeGraphPayload {| nodes := map sizedNode (rawNodes rawData);
                               links := rawLinks rawData |} /\
  validateGraph (graphData (core s')) = {| isValid := true; issues := [] |} /\
  length (nodes (graphData (core s'))) = length (rawNodes rawData) /\
  statsConsistent (core s') /\
  appState s' = VISUALIZING /\
  currentFileName s' = fileName /\
  selectedNode s' = None /\ query s' = "" /\ queryResults s' = [] /\
  highlightedNodeIds s' = ∅ /\ highlightedLinkKeys s' = ∅ /\
  toast (core s') = Some {| toastType := ToastSuccess;
                            message := "Graph extracted from " +:+ fileName |}.
Proof.
  intros Hok. unfold handleFileLoad, extractGraphFromMarkdown. rewrite Hok.
  cbn -[normalizeGraphPayload validateGraph]. split_and!; try done.
  - apply validateGraph_clean, normalized_links_known.
  - rewrite normalize_nodes_eq. cbn [nodes]. by rewrite !length_map.
Qed.

Lemma handleFileLoad_success_installs_normalized_graph_witness :
  let raw := mkRawGraph [mkRawNode (sampleNode "A") None; mkRawNode (sampleNode "B") None]
                        [sampleLink "A" "B" "uses"; sampleLink "A" "Z" "cites"] in
  links (graphData (core (handleFileLoad (fun _ => Extracted raw) 5 "text" "notes.md"
                            (sampleShell {| nodes := []; links := [] |}))))
  = [sampleLink "A" "B" "uses"].
Proof.
  cbn zeta.
  destruct (handleFileLoad_success_installs_normalized_graph
              (fun _ => Extracted
                 (mkRawGraph [mkRawNode (sampleNode "A") None; mkRawNode (sampleNode "B") None]
                             [sampleLink "A" "B" "uses"; sampleLink "A" "Z" "cites"]))
              5 "text" "notes.md" (sampleShell {| nodes := []; links := [] |})
              _ eq_refl) as (H & _).
  rewrite H. vm_compute. reflexivity.
Defined.

(** ** Search and highlighting *)

Lemma nodeMapOf_lookup ns : forall (m : gmap string GraphNode) i n,
  (forall j k, m !! j = Some k -> k ∈ ns /\ id k = j) ->
  fold_left (fun m n => <[id n := n]> m) ns m !! i = Some n ->
  n ∈ ns /\ id n = i.
Proof.
  intros m i n Hm H.
  assert (Hgen : forall (l : list GraphNode) (m0 : gmap string GraphNode),
             (forall j k, m0 !! j = Some k -> k ∈ ns /\ id k = j) ->
             (forall k, k ∈ l -> k ∈ ns) ->
             forall j k, fold_left (fun m n => <[id n := n]> m) l m0 !! j = Some k ->
                         k ∈ ns /\ id k = j).
  { induction l as [|x l IH]; intros m0 Hm0 Hl j k Hjk; cbn in Hjk; [by apply Hm0|].
    apply (IH (<[id x := x]> m0)); [| |done].
    - intros j' k' Hj'. destruct (decide (id x = j')) as [<-|Hne].
      + rewrite lookup_insert_eq in Hj'. injection Hj' as <-.
        split; [apply Hl, list_elem_of_here | done].
      + rewrite lookup_insert_ne in Hj' by done. by apply Hm0.
    - intros k' Hk'. apply Hl. by apply list_elem_of_further. }
  by apply (Hgen ns m Hm (fun k Hk => Hk) i n).
Qed.

Lemma nodeMapOf_sound ns i n : nodeMapOf ns !! i = Some n -> n ∈ ns /\ id n = i.
Proof.
  unfold nodeMapOf. apply nodeMapOf_lookup. intros j k H. by rewrite lookup_empty in H.
Qed.

Lemma relationshipMatch_sound js ns term l0 m :
  m ∈ relationshipMatch js (nodeMapOf ns) term l0 ->
  fst (fst m) = resolvedLink l0 /\
  snd (fst m) ∈ ns /\ snd m ∈ ns /\
  id (snd (fst m)) = getNodeId (source l0) /\
  id (snd m) = getNodeId (target l0).
Proof.
  unfold relationshipMatch.
  destruct (nodeMapOf ns !! getNodeId (source l0)) as [sn|] eqn:Hs;
    [|by intros H; apply elem_of_nil in H].
  destruct (nodeMapOf ns !! getNodeId (target l0)) as [tn|] eqn:Ht;
    [|by intros H; apply elem_of_nil in H].
  apply nodeMapOf_sound in Hs as [Hs1 Hs2]. apply nodeMapOf_sound in Ht as [Ht1 Ht2].
  destruct (_ || _ || _); [|by intros H; apply elem_of_nil in H].
  intros H. apply list_elem_of_singleton in H. subst m. cbn. by split_and!.
Qed.

Lemma take_sublist {A} n (l : list A) : sublist (take n l) l.
Proof.
  rewrite <- (take_drop n l) at 2. apply sublist_inserts_r. done.
Qed.

Lemma searchResults_relationship_origin js q g l sn tn :
  RelationshipResult l sn tn ∈ searchResults js q g ->
  exists l0, l0 ∈ links g /\ l = resolvedLink l0 /\ sn ∈ nodes g /\ tn ∈ nodes g /\
             id sn = getNodeId (source l0) /\ id tn = getNodeId (target l0).
Proof.
  unfold searchResults.
  destruct (String.eqb _ "" || _ || _); [by intros H; apply elem_of_nil in H|].
  intros Hin. apply elem_of_app in Hin as [Hin|Hin].
  { apply list_elem_of_fmap in Hin as (n & Hn & _). discriminate Hn. }
  apply list_elem_of_fmap in Hin as (m & Hm & Hmin).
  apply (fun H => elem_of_sublist _ _ _ H (take_sublist _ _)) in Hmin.
  apply list_elem_of_In, in_flat_map in Hmin as (l0 & Hl0 & Hmin).
  apply list_elem_of_In, relationshipMatch_sound in Hmin.
  injection Hm as -> -> ->. exists l0. split; [by apply list_elem_of_In | done].
Qed.

(** The search never returns more than six nodes followed by six
    relationships.  The node results are nodes of the graph, in graph
    order; every relationship result comes from a link of the graph
    whose two endpoints are nodes of the graph, and carries that link
    with its endpoints resolved to bare identifiers. *)
Theorem searchResults_shape (js : StringOps) (q : string) (g : GraphData) :
  exists nodeHits relHits,
    searchResults js q g
      = map NodeResult nodeHits
        ++ map (fun m => RelationshipResult (fst (fst m)) (snd (fst m)) (snd m)) relHits /\
    length nodeHits <= 6 /\ length relHits <= 6 /\
    length (searchResults js q g) <= 12 /\
    sublist nodeHits (nodes g) /\
    Forall (fun m => exists l0,
                l0 ∈ links g /\
                fst (fst m) = resolvedLink l0 /\
                snd (fst m) ∈ nodes g /\ snd m ∈ nodes g /\
                id (snd (fst m)) = getNodeId (source l0) /\
                id (snd m) = getNodeId (target l0)) relHits.
Proof.
  unfold searchResults.
  destruct (String.eqb _ "" || _ || _).
  - exists [], []. cbn. split_and!; try done; try lia; try apply sublist_nil_l.
  - eexists _, _. split; [reflexivity|].
    assert (H6 : forall A (l : list A), length (take 6 l) <= 6).
    { intros A l. rewrite length_take. lia. }
    split_and!.
    + apply H6.
    + apply H6.
    + rewrite length_app, !length_map.
      pose proof (H6 GraphNode) as Ha. pose proof (H6 (GraphLink * GraphNode * GraphNode)%type) as Hb.
      match goal with |- length (take 6 ?a) + length (take 6 ?b) <= _ =>
        specialize (Ha a); specialize (Hb b) end. lia.
    + etrans; [apply take_sublist | apply filter_sublist].
    + apply Forall_forall. intros m Hm.
      apply (fun H => elem_of_sublist _ _ _ H (take_sublist _ _)) in Hm.
      apply list_elem_of_In, in_flat_map in Hm as (l0 & Hl0 & Hm).
      exists l0. split; [by apply list_elem_of_In|].
      apply relationshipMatch_sound with (js := js) (term := toLowerCase js (trim js q)).
      by apply list_elem_of_In.
Qed.

(** A query of fewer than two characters (after trimming and
    lower-casing), or any query on an empty graph, has no results. *)
Theorem searchResults_short_query (js : StringOps) (q : string) (g : GraphData) :
  jsLength js (toLowerCase js (trim js q)) < MIN_QUERY_LENGTH \/ nodes g = [] ->
  searchResults js q g = [].
Proof.
  intros H. unfold searchResults.
  destruct (String.eqb _ "") eqn:He; cbn [orb]; [done|].
  destruct H as [H| ->].
  - apply Nat.ltb_lt in H. by rewrite H.
  - cbn. by rewrite orb_true_r.
Qed.

Lemma searchResults_short_query_witness :
  searchResults sampleOps "a"
    {| nodes := [sampleNode "A"; sampleNode "B"]; links := [sampleLink "A" "B" "uses"] |} = [].
Proof.
  apply (searchResults_short_query sampleOps "a"
           {| nodes := [sampleNode "A"; sampleNode "B"];
              links := [sampleLink "A" "B" "uses"] |}).
  left. cbn. unfold MIN_QUERY_LENGTH. lia.
Defined.

Lemma linkColor_highlight key l :
  linkColor {[ key ]} l = (if bool_decide (buildLinkKey l = key) then "#fbbf24" else "#1f2937").
Proof.
  unfold linkColor. rewrite size_singleton. cbn.
  destruct (decide (buildLinkKey l = key)) as [Hk|Hk].
  - rewrite !bool_decide_eq_true_2; [done | done | set_solver].
  - rewrite !bool_decide_eq_false_2; [done | done | set_solver].
Qed.

Lemma linkWidth_highlight key l :
  linkWidth {[ key ]} l = (if bool_decide (buildLinkKey l = key) then 2%float else 0.5%float).
Proof.
  unfold linkWidth. rewrite size_singleton. cbn.
  destruct (decide (buildLinkKey l = key)) as [Hk|Hk].
  - rewrite !bool_decide_eq_true_2; [done | done | set_solver].
  - rewrite !bool_decide_eq_false_2; [done | done | set_solver].
Qed.

(** Selecting a relationship result highlights the link it came from:
    the result's two nodes become the highlighted nodes, the first of
    them the selected node, and the renderer draws in the highlight
    colour and width exactly the links whose key is the key of the
    result.  Among them is the graph link that produced the result,
    whether its endpoints are still bare identifiers or have been
    replaced by node objects; every other link is dimmed. *)
Theorem selected_relationship_is_highlighted
    (js : StringOps) (q : string) (g : GraphData)
    (l : GraphLink) (sn tn : GraphNode) (s : ShellModel) :
  RelationshipResult l sn tn ∈ searchResults js q g ->
  let s' := handleResultSelect (RelationshipResult l sn tn) s in
  selectedNode s' = Some sn /\
  highlightedNodeIds s' = {[ id sn ]} ∪ {[ id tn ]} /\
  sn ∈ nodes g /\ tn ∈ nodes g /\
  (exists l0, l0 ∈ links g /\
              getNodeId (source l0) = id sn /\ getNodeId (target l0) = id tn /\
              relationship l0 = relationship l /\
              linkColor (highlightedLinkKeys s') l0 = "#fbbf24" /\
              linkWidth (highlightedLinkKeys s') l0 = 2%float) /\
  (forall l1, buildLinkKey l1 = buildLinkKey l ->
              linkColor (highlightedLinkKeys s') l1 = "#fbbf24") /\
  (forall l1, buildLinkKey l1 <> buildLinkKey l ->
              linkColor (highlightedLinkKeys s') l1 = "#1f2937" /\
              linkWidth (highlightedLinkKeys s') l1 = 0.5%float).
Proof.
  intros Hin.
  destruct (searchResults_relationship_origin js q g l sn tn Hin)
    as (l0 & Hl0 & Hl & Hs & Ht & Hsid & Htid).
  cbn. split_and!; try done.
  - exists l0. rewrite linkColor_highlight, linkWidth_highlight.
    assert (Hkey : buildLinkKey l0 = buildLinkKey l) by (by rewrite Hl).
    rewrite !bool_decide_eq_true_2 by done.
    split_and!; try done. by rewrite Hl.
  - intros l1 Hl1. rewrite linkColor_highlight. by rewrite bool_decide_eq_true_2.
  - intros l1 Hl1. rewrite linkColor_highlight, linkWidth_highlight.
    by rewrite !bool_decide_eq_false_2.
Qed.

Lemma selected_relationship_is_highlighted_witness :
  let g := {| nodes := [sampleNode "A"; sampleNode "B"];
              links := [mkLink (RefNode (sampleNode "A")) (RefNode (sampleNode "B"))
                               (Some "uses")] |} in
  exists l0, l0 ∈ links g /\
    linkColor
      (highlightedLinkKeys
         (handleResultSelect
            (RelationshipResult (sampleLink "A" "B" "uses") (sampleNode "A") (sampleNode "B"))
            (sampleShell g))) l0 = "#fbbf24".
Proof.
  cbn zeta.
  destruct (selected_relationship_is_highlighted sampleOps "uses"
              {| nodes := [sampleNode "A"; sampleNode "B"];
                 links := [mkLink (RefNode (sampleNode "A")) (RefNode (sampleNode "B"))
                                  (Some "uses")] |}
              (sampleLink "A" "B" "uses") (sampleNode "A") (sampleNode "B")
              (sampleShell {| nodes := [sampleNode "A"; sampleNode "B"];
                              links := [mkLink (RefNode (sampleNode "A"))
                                               (RefNode (sampleNode "B")) (Some "uses")] |}))
    as (_ & _ & _ & _ & (l0 & Hl0 & _ & _ & _ & Hc & _) & _).
  - vm_compute. apply list_elem_of_here.
  - exists l0. by split.
Defined.

(** ** Node colours *)

Lemma setOf_fold (values : list string) : forall acc,
  NoDup acc ->
  NoDup (fold_left (fun acc x => if decide (x ∈ acc) then acc else acc ++ [x]) values acc) /\
  (forall x, x ∈ fold_left (fun acc x => if decide (x ∈ acc) then acc else acc ++ [x])
                     values acc <-> x ∈ acc \/ x ∈ values).
Proof.
  induction values as [|v values IH]; intros acc Hacc; cbn [fold_left].
  - split; [done|]. intros x. rewrite elem_of_nil. tauto.
  - destruct (decide (v ∈ acc)) as [Hv|Hv].
    + destruct (IH acc Hacc) as [Hnd Hin]. split; [done|].
      intros x. rewrite Hin, elem_of_cons. split; [tauto|].
      intros [H|[->|H]]; tauto.
    + assert (Hnd' : NoDup (acc ++ [v])).
      { apply NoDup_app. split_and!; [done | | apply NoDup_singleton].
        intros x Hx Hx'. apply list_elem_of_singleton in Hx'. by subst. }
      destruct (IH _ Hnd') as [Hnd Hin]. split; [done|].
      intros x. rewrite Hin, elem_of_app, list_elem_of_singleton, elem_of_cons. tauto.
Qed.

Lemma setOf_NoDup values : NoDup (setOf values).
Proof. apply setOf_fold, NoDup_nil_2. Qed.

Lemma elem_of_setOf values x : x ∈ setOf values <-> x ∈ values.
Proof.
  unfold setOf. destruct (setOf_fold values [] (NoDup_nil_2)) as [_ H].
  rewrite H, elem_of_nil. tauto.
Qed.

Lemma mapGet_imap (ts : list string) : forall (f : nat -> string) i t,
  NoDup ts -> ts !! i = Some t ->
  mapGet t (imap (fun i t => (t, f i)) ts) = Some (f i).
Proof.
  induction ts as [|x ts IH]; intros f i t Hnd Hi; [done|].
  cbn [imap mapGet]. apply NoDup_cons in Hnd as [Hx Hnd].
  destruct i as [|i]; cbn in Hi.
  - injection Hi as ->. by rewrite decide_True.
  - rewrite decide_False.
    + apply (IH (f ∘ S) i t Hnd Hi).
    + intros ->. apply Hx. by eapply list_elem_of_lookup_2.
Qed.

Lemma colors_NoDup : NoDup colors.
Proof. apply (bool_decide_unpack _). by vm_compute. Qed.

Lemma colors_nth i :
  nth (i mod length colors) colors "" ∈ colors /\
  nth (i mod length colors) colors "" <> "" /\
  nth (i mod length colors) colors "" <> "#cbd5e1".
Proof.
  assert (H : i mod length colors < 7) by (apply Nat.mod_upper_bound; cbn; lia).
  destruct (i mod length colors) as [|[|[|[|[|[|[|k]]]]]]]; [..|lia];
    (split_and!; [cbn; set_solver | done | done]).
Qed.

Lemma typeColorMap_lookup data i t :
  setOf (map type (nodes data)) !! i = Some t ->
  mapGet t (typeColorMap data) = Some (nth (i mod length colors) colors "").
Proof.
  intros Hi. unfold typeColorMap.
  apply (mapGet_imap _ (fun i => nth (i mod length colors) colors "") i t);
    [apply setOf_NoDup | done].
Qed.

Lemma nodeColor_index data hl n :
  n ∈ nodes data -> id n ∉ hl ->
  exists i, setOf (map type (nodes data)) !! i = Some (type n) /\
            nodeColor hl (typeColorMap data) n = nth (i mod length colors) colors "".
Proof.
  intros Hn Hhl.
  assert (Ht : type n ∈ setOf (map type (nodes data))).
  { apply elem_of_setOf, list_elem_of_fmap. by exists n. }
  apply list_elem_of_lookup in Ht as [i Hi]. exists i. split; [done|].
  unfold nodeColor. rewrite bool_decide_eq_false_2 by done.
  rewrite (typeColorMap_lookup data i _ Hi).
  destruct (colors_nth i) as (_ & Hne & _).
  destruct (String.eqb _ "") eqn:He; [|done].
  by apply String.eqb_eq in He.
Qed.

(** Every node of the rendered graph gets a colour.  A highlighted
    node is amber; any other node gets the palette colour of its
    type -- never the grey fallback -- so that nodes of one type share
    a colour, whatever else is highlighted. *)
Theorem nodeColor_from_palette (data : GraphData) (hl : gset string) (n : GraphNode) :
  n ∈ nodes data ->
  (id n ∈ hl -> nodeColor hl (typeColorMap data) n = "#fbbf24") /\
  (id n ∉ hl ->
     nodeColor hl (typeColorMap data) n ∈ colors /\
     nodeColor hl (typeColorMap data) n <> "#cbd5e1" /\
     forall hl' n', n' ∈ nodes data -> id n' ∉ hl' -> type n' = type n ->
       nodeColor hl' (typeColorMap data) n' = nodeColor hl (typeColorMap data) n).
Proof.
  intros Hn. split.
  - intros Hhl. unfold nodeColor. by rewrite bool_decide_eq_true_2.
  - intros Hhl.
    destruct (nodeColor_index data hl n Hn Hhl) as (i & Hi & Hc).
    rewrite Hc. destruct (colors_nth i) as (Hin & _ & Hgrey).
    split_and!; [done | done |].
    intros hl' n' Hn' Hhl' Hty.
    destruct (nodeColor_index data hl' n' Hn' Hhl') as (j & Hj & Hc').
    rewrite Hc'. rewrite Hty in Hj.
    by rewrite (NoDup_lookup _ i j (type n) (setOf_NoDup _) Hi Hj).
Qed.

Lemma nodeColor_from_palette_witness :
  nodeColor ∅ (typeColorMap {| nodes := [sampleNode "A"]; links := [] |}) (sampleNode "A")
    ∈ colors.
Proof.
  apply (nodeColor_from_palette {| nodes := [sampleNode "A"]; links := [] |} ∅ (sampleNode "A")).
  - cbn. apply list_elem_of_here.
  - cbn. set_solver.
Defined.

(** While the nodes use no more types than the palette has colours,
    the colour tells the type: two nodes that are not highlighted have
    the same colour exactly when they have the same type. *)
Theorem nodeColor_separates_types (data : GraphData) (hl : gset string)
    (ts : list string) (n1 n2 : GraphNode) :
  (forall n, n ∈ nodes data -> type n ∈ ts) ->
  length ts <= length colors ->
  n1 ∈ nodes data -> n2 ∈ nodes data -> id n1 ∉ hl -> id n2 ∉ hl ->
  (nodeColor hl (typeColorMap data) n1 = nodeColor hl (typeColorMap data) n2
   <-> type n1 = type n2).
Proof.
  intros Hts Hlen H1 H2 Hh1 Hh2.
  destruct (nodeColor_index data hl n1 H1 Hh1) as (i & Hi & Hc1).
  destruct (nodeColor_index data hl n2 H2 Hh2) as (j & Hj & Hc2).
  rewrite Hc1, Hc2.
  assert (Hle : length (setOf (map type (nodes data))) <= length colors).
  { etrans; [|exact Hlen]. apply submseteq_length, NoDup_submseteq; [apply setOf_NoDup|].
    intros t Ht. apply elem_of_setOf, list_elem_of_fmap in Ht as (n & -> & Hn). by apply Hts. }
  pose proof (lookup_lt_Some _ _ _ Hi) as Hi'. pose proof (lookup_lt_Some _ _ _ Hj) as Hj'.
  rewrite !Nat.mod_small by lia.
  split.
  - intros Heq.
    assert (Hci : colors !! i = Some (nth i colors "")).
    { rewrite nth_lookup. destruct (lookup_lt_is_Some_2 colors i) as [c Hc]; [lia|]. by rewrite Hc. }
    assert (Hcj : colors !! j = Some (nth j colors "")).
    { rewrite nth_lookup. destruct (lookup_lt_is_Some_2 colors j) as [c Hc]; [lia|]. by rewrite Hc. }
    rewrite Heq in Hci.
    pose proof (NoDup_lookup _ i j _ colors_NoDup Hci Hcj) as <-.
    rewrite Hi in Hj. by injection Hj.
  - intros Hty. rewrite Hty in Hi.
    by rewrite (NoDup_lookup _ i j (type n2) (setOf_NoDup _) Hi Hj).
Qed.

Lemma nodeColor_separates_types_witness :
  let a := mkNode "A" "A" "Person" "" None None in
  let b := mkNode "B" "B" "Place" "" None None in
  let data := {| nodes := [a; b]; links := [] |} in
  nodeColor ∅ (typeColorMap data) a = nodeColor ∅ (typeColorMap data) b <-> type a = type b.
Proof.
  cbn zeta.
  apply (nodeColor_separates_types
           {| nodes := [mkNode "A" "A" "Person" "" None None; mkNode "B" "B" "Place" "" None None];
              links := [] |} ∅ ["Person"; "Place"]).
  - intros n Hn. cbn in Hn. set_solver.
  - cbn. lia.
  - cbn. set_solver.
  - cbn. set_solver.
  - cbn. set_solver.
  - cbn. set_solver.
Defined.

(** The palette is reused cyclically: once the nodes use more types
    than there are colours, two nodes of different types are drawn in
    the same colour. *)
Theorem nodeColor_reused_beyond_palette (data : GraphData) (ts : list string) :
  NoDup ts -> length colors < length ts ->
  (forall t, t ∈ ts -> exists n, n ∈ nodes data /\ type n = t) ->
  exists n1 n2,
    n1 ∈ nodes data /\ n2 ∈ nodes data /\ type n1 <> type n2 /\
    forall hl, id n1 ∉ hl -> id n2 ∉ hl ->
      nodeColor hl (typeColorMap data) n1 = nodeColor hl (typeColorMap data) n2.
Proof.
  intros Hnd Hlen Hts.
  assert (Hle : length ts <= length (setOf (map type (nodes data)))).
  { apply submseteq_length, NoDup_submseteq; [done|].
    intros t Ht. destruct (Hts t Ht) as (n & Hn & <-).
    apply elem_of_setOf, list_elem_of_fmap. by exists n. }
  destruct (lookup_lt_is_Some_2 (setOf (map type (nodes data))) 0) as [t0 H0]; [lia|].
  destruct (lookup_lt_is_Some_2 (setOf (map type (nodes data))) (length colors)) as [t7 H7];
    [lia|].
  assert (Hin : forall i t, setOf (map type (nodes data)) !! i = Some t ->
                            exists n, n ∈ nodes data /\ type n = t).
  { intros i t Hi. apply list_elem_of_lookup_2, elem_of_setOf, list_elem_of_fmap in Hi
      as (n & -> & Hn). by exists n. }
  destruct (Hin _ _ H0) as (n1 & Hn1 & Ht1). destruct (Hin _ _ H7) as (n2 & Hn2 & Ht2).
  exists n1, n2. split_and!; [done | done | |].
  - rewrite Ht1, Ht2. intros ->.
    pose proof (NoDup_lookup _ _ _ _ (setOf_NoDup _) H0 H7) as Heq. cbn in Heq. lia.
  - intros hl Hh1 Hh2.
    destruct (nodeColor_index data hl n1 Hn1 Hh1) as (i & Hi & ->).
    destruct (nodeColor_index data hl n2 Hn2 Hh2) as (j & Hj & ->).
    rewrite Ht1 in Hi. rewrite Ht2 in Hj.
    rewrite (NoDup_lookup _ _ _ _ (setOf_NoDup _) Hi H0).
    rewrite (NoDup_lookup _ _ _ _ (setOf_NoDup _) Hj H7).
    by rewrite Nat.Div0.mod_same, Nat.Div0.mod_0_l.
Qed.

Lemma nodeColor_reused_beyond_palette_witness :
  let mk t := mkNode t t t "" None None in
  let data := {| nodes := map mk ["a"; "b"; "c"; "d"; "e"; "f"; "g"; "h"]; links := [] |} in
  exists n1 n2,
    n1 ∈ nodes data /\ n2 ∈ nodes data /\ type n1 <> type n2 /\
    forall hl, id n1 ∉ hl -> id n2 ∉ hl ->
      nodeColor hl (typeColorMap data) n1 = nodeColor hl (typeColorMap data) n2.
Proof.
  cbn zeta.
  apply (nodeColor_reused_beyond_palette
           {| nodes := map (fun t => mkNode t t t "" None None)
                           ["a"; "b"; "c"; "d"; "e"; "f"; "g"; "h"]; links := [] |}
           ["a"; "b"; "c"; "d"; "e"; "f"; "g"; "h"]).
  - apply (bool_decide_unpack _). by vm_compute.
  - cbn. lia.
  - intros t Ht. exists (mkNode t t t "" None None). split; [|done].
    cbn. set_solver.
Defined.
